(** * django-react-bridge: the request pipeline of [ApiClient]

    A shallow embedding of [apiClient.ts] (token store, refresh, retry,
    response cache, the 401 interceptor) and of the option resolution of
    [ApiClient.get], with the properties of the pipeline proved on it.

    Conventions of the embedding.
    - A JavaScript [number] is an integer of [Z]; [0] is its only falsy
      value here ([NaN] and fractions are left out).  Where the digits of a
      number matter, in the cache key, the statements are about safe
      integers, [|n| <= 2^53 - 1].
    - A property that reads [undefined] is [None].
    - An [async] method is a function of the [World] it runs in, returning
      what its promise settles to ([Ok] for resolved, [Throw] for rejected)
      and the world it leaves behind. *)

From stdpp Require Import gmap strings list pretty sorting.
From Equations Require Import Equations.
From Stdlib Require Import ZArith Lia Ascii.

Local Open Scope string_scope.
Local Open Scope list_scope.
Local Open Scope Z_scope.

(** ** JavaScript objects and truthiness *)

(** An own property of an object literal handed to the constructor: the
    key may be missing, or present with the value [undefined], or present
    with a value.  Spreading copies the last two alike. *)
Inductive Field (T : Type) : Type :=
| Absent
| Undefined
| Val (v : T).
Arguments Absent {T}.
Arguments Undefined {T}.
Arguments Val {T} v.

(** Reading the property. *)
Definition read {T} (f : Field T) : option T :=
  match f with
  | Val v => Some v
  | _ => None
  end.

(** One property of [{ ...a, ...b }]. *)
Definition spread {T} (a b : Field T) : Field T :=
  match b with
  | Absent => a
  | _ => b
  end.

(** [ToBoolean] on the values the client tests. *)
Definition truthy_bool (b : option bool) : bool :=
  match b with
  | Some true => true
  | _ => false
  end.

Definition truthy_num (n : option Z) : bool :=
  match n with
  | Some v => negb (v =? 0)
  | None => false
  end.

Definition truthy_str (s : option string) : bool :=
  match s with
  | Some v => negb (String.eqb v EmptyString)
  | None => false
  end.

(** [a || b] on numbers that may be [undefined]. *)
Definition or_num (a b : option Z) : option Z :=
  if truthy_num a then a else b.

(** [a || k] with a number literal on the right. *)
Definition or_lit (a : option Z) (k : Z) : Z :=
  match a with
  | Some v => if v =? 0 then k else v
  | None => k
  end.

(** ** types.ts *)

Record AuthTokens : Type := {
  access : option string;
  refresh : option string
}.

(** The properties of [ApiClientConfig] the pipeline reads.  [baseURL],
    [authEndpoints], [tokenStorageKey], [defaultHeaders] and
    [defaultTimeout] only name the storage slot and parametrise the
    transport; [autoRefreshToken] is read nowhere.  [onAuthError] is a
    callback: the model records whether it is present. *)
Record ApiClientConfig : Type := {
  enableCache : Field bool;
  cacheDuration : Field Z;
  enableRetry : Field bool;
  retryCount : Field Z;
  retryDelay : Field Z;
  onAuthError : Field unit
}.

(** A value of a query parameter. *)
Inductive ParamValue : Type :=
| PNull
| PBool (b : bool)
| PNum (n : Z)
| PStr (s : string).

(** [params]: the own properties in enumeration order. *)
Definition Params : Type := list (string * ParamValue).

(** [RequestOptions]: the five options of the client and, of the axios
    options passed through, [params]. *)
Record RequestOptions : Type := {
  opt_cache : option bool;
  opt_cacheDuration : option Z;
  opt_retry : option bool;
  opt_retryCount : option Z;
  opt_retryDelay : option Z;
  opt_params : option Params
}.

(** [options || {}] for a call without options. *)
Definition no_options : RequestOptions :=
  {| opt_cache := None; opt_cacheDuration := None; opt_retry := None;
     opt_retryCount := None; opt_retryDelay := None; opt_params := None |}.

(** ** The own properties of an object, in order *)

(** Decimal digits, read as a number. *)
Definition digit_value (c : ascii) : option N :=
  let n := N_of_ascii c in
  if (48 <=? n)%N && (n <=? 57)%N then Some (n - 48)%N else None.

Fixpoint read_decimal (acc : N) (s : string) : option N :=
  match s with
  | EmptyString => Some acc
  | String c r =>
      match digit_value c with
      | Some v => read_decimal (acc * 10 + v) r
      | None => None
      end
  end.

(** An array index: a key that is the canonical decimal of an integer
    below [2^32 - 1] (["0"], ["7"], ["42"]; not ["07"], ["-1"], ["1.5"]). *)
Definition array_index (key : string) : option N :=
  match key with
  | EmptyString => None
  | _ =>
      match read_decimal 0 key with
      | Some n =>
          if String.eqb (pretty n) key && (n <? 4294967295)%N
          then Some n else None
      | None => None
      end
  end.

(** Whether a new key [key] is enumerated before the existing key [k]:
    array indices in ascending order, and before every other key. *)
Definition precedes (key k : string) : bool :=
  match array_index key, array_index k with
  | Some i, Some j => (i <? j)%N
  | Some _, None => true
  | None, _ => false
  end.

(** A property [key: value] of an object literal, defined on the object
    whose own properties enumerate as [obj].  A key the object has keeps
    its place and takes the value; a new array index is placed in
    ascending order among the indices, which come first; any other new key
    comes last.  [__proto__: value] defines no own property. *)
Fixpoint define_property (key : string) (value : ParamValue) (obj : Params) : Params :=
  match obj with
  | [] => if String.eqb key "__proto__" then [] else [(key, value)]
  | (k, v) :: rest =>
      if String.eqb key "__proto__" then obj
      else if String.eqb k key then (k, value) :: rest
      else if precedes key k then (key, value) :: obj
      else (k, v) :: define_property key value rest
  end.

(** The own properties of the object literal [{ k1: v1, k2: v2, ... }],
    in the order [JSON.stringify] and [for ... in] enumerate them. *)
Definition own_properties (literal : list (string * ParamValue)) : Params :=
  foldl (fun obj kv => define_property (fst kv) (snd kv) obj) [] literal.

(** ** The constructor: [this.config = { ...defaultConfig, ...config }] *)

Definition defaultConfig : ApiClientConfig :=
  {| enableCache := Val true;
     cacheDuration := Val (5 * 60 * 1000);
     enableRetry := Val true;
     retryCount := Val 3;
     retryDelay := Val 1000;
     onAuthError := Absent |}.

Definition constructor (config : ApiClientConfig) : ApiClientConfig :=
  {| enableCache := spread (enableCache defaultConfig) (enableCache config);
     cacheDuration := spread (cacheDuration defaultConfig) (cacheDuration config);
     enableRetry := spread (enableRetry defaultConfig) (enableRetry config);
     retryCount := spread (retryCount defaultConfig) (retryCount config);
     retryDelay := spread (retryDelay defaultConfig) (retryDelay config);
     onAuthError := spread (onAuthError defaultConfig) (onAuthError config) |}.

(** ** Option resolution of [get] (and of the other verbs) *)

Section Resolution.
Variable config : ApiClientConfig.   (* this.config *)
Variable options : RequestOptions.

(** [cache !== undefined ? cache : this.config.enableCache] *)
Definition useCache : option bool :=
  match opt_cache options with
  | Some c => Some c
  | None => read (enableCache config)
  end.

(** [cacheDuration || this.config.cacheDuration || 5 * 60 * 1000] *)
Definition cacheTime : Z :=
  or_lit (or_num (opt_cacheDuration options) (read (cacheDuration config)))
         (5 * 60 * 1000).

(** [retry !== undefined ? retry : this.config.enableRetry] *)
Definition shouldRetry : option bool :=
  match opt_retry options with
  | Some r => Some r
  | None => read (enableRetry config)
  end.

(** [retryCount || this.config.retryCount || 3] *)
Definition maxRetries : Z :=
  or_lit (or_num (opt_retryCount options) (read (retryCount config))) 3.

(** [retryDelay || this.config.retryDelay || 1000] *)
Definition delay : Z :=
  or_lit (or_num (opt_retryDelay options) (read (retryDelay config))) 1000.
End Resolution.

(** ** The cache key: [`${url}${JSON.stringify(axiosConfig.params || {})}`] *)

Definition dquote : ascii := "034"%char.
Definition backslash : ascii := "\"%char.

Definition hex_digit (n : N) : ascii :=
  if (n <? 10)%N then ascii_of_N (48 + n) else ascii_of_N (87 + n).

(** [QuoteJSONString] on one code unit. *)
Definition escape_char (c : ascii) : string :=
  let n := N_of_ascii c in
  if (n =? 8)%N then "\b"
  else if (n =? 9)%N then "\t"
  else if (n =? 10)%N then "\n"
  else if (n =? 12)%N then "\f"
  else if (n =? 13)%N then "\r"
  else if (n =? 34)%N then String backslash (String dquote EmptyString)
  else if (n =? 92)%N then "\\"
  else if (n <? 32)%N then
    "\u00" +:+ String (hex_digit (n / 16)) (String (hex_digit (n mod 16)) EmptyString)
  else String c EmptyString.

Fixpoint escape (s : string) : string :=
  match s with
  | EmptyString => EmptyString
  | String c r => escape_char c +:+ escape r
  end.

Definition quote (s : string) : string :=
  String dquote (escape s +:+ String dquote EmptyString).

(** A number is written digit by digit, as [JSON.stringify] writes a
    safe integer. *)
Definition stringify_value (v : ParamValue) : string :=
  match v with
  | PNull => "null"
  | PBool true => "true"
  | PBool false => "false"
  | PNum n => pretty n
  | PStr s => quote s
  end.

Definition stringify_property (kv : string * ParamValue) : string :=
  quote (fst kv) +:+ ":" +:+ stringify_value (snd kv).

Fixpoint stringify_properties (p : Params) : string :=
  match p with
  | [] => EmptyString
  | [kv] => stringify_property kv
  | kv :: r => stringify_property kv +:+ "," +:+ stringify_properties r
  end.

(** [JSON.stringify] of an object whose properties are [p], in order. *)
Definition JSON_stringify (p : Params) : string :=
  "{" +:+ stringify_properties p +:+ "}".

Definition cacheKey (url : string) (options : RequestOptions) : string :=
  url +:+ JSON_stringify (default [] (opt_params options)).

(** ** The world the client runs in *)

Inductive Method : Type := GET | POST | PUT | PATCH | DELETE.

(** An axios request configuration, with the properties the pipeline
    touches; [_retry] is the flag the response interceptor hangs on it. *)
Record Request : Type := {
  method : Method;
  url : string;
  params : option Params;
  body : option string;
  Authorization : option string;
  _retry : bool
}.

(** [response.data].  [DNull] is [null] or [undefined], on which a
    property access throws; [DVal a c] is a value whose [access] property
    reads [a] and whose content is [c]. *)
Inductive Data : Type :=
| DNull
| DVal (access_property : option string) (content : string).

(** How one network call ends: no response at all (network error,
    timeout), or a response with its status. *)
Inductive Outcome : Type :=
| NoResponse
| Response (status : Z) (data : Data).

(** A reply, and the time it takes to arrive. *)
Record Reply : Type := {
  latency : Z;
  outcome : Outcome
}.

(** What the storage backend holds under [tokenStorageKey], seen through
    [JSON.parse]: a string that does not parse, or one that parses to an
    object with these [access] and [refresh] properties (a value without
    properties, such as [null], reads as an object without them).  No
    item, or the empty string, which [getTokens] treats alike, is [None]
    in [storage]. *)
Inductive Item : Type :=
| BadJSON
| JSON (tokens : AuthTokens).

Record CacheEntry : Type := {
  data : Data;
  expiry : Z
}.

(** What the client does to the outside, in order. *)
Inductive Event : Type :=
| Dispatch (config : Request)       (* this.instance sends a request *)
| RefreshPost (refresh : option string)  (* axios.post(refreshURL, { refresh }) *)
| SetTimeout (ms : Z)               (* setTimeout(resolve, ms) *)
| AuthError.                        (* this.config.onAuthError() *)

Record World : Type := {
  storage : option Item;            (* this.storage, at tokenStorageKey *)
  cache : gmap string CacheEntry;   (* this.cache *)
  now : Z;                          (* Date.now() *)
  net : nat -> Reply;               (* the reply to the k-th network call *)
  sent : nat;                       (* network calls made so far *)
  trace : list Event
}.

Definition set_storage (s : option Item) (w : World) : World :=
  {| storage := s; cache := cache w; now := now w; net := net w;
     sent := sent w; trace := trace w |}.

Definition set_cache (c : gmap string CacheEntry) (w : World) : World :=
  {| storage := storage w; cache := c; now := now w; net := net w;
     sent := sent w; trace := trace w |}.

Definition emit (e : Event) (w : World) : World :=
  {| storage := storage w; cache := cache w; now := now w; net := net w;
     sent := sent w; trace := trace w ++ [e] |}.

Definition elapse (ms : Z) (w : World) : World :=
  {| storage := storage w; cache := cache w; now := now w + ms; net := net w;
     sent := sent w; trace := trace w |}.

(** A network call.  The request leaves: it is logged and gets the
    number of its reply.  The reply arrives: time has passed. *)
Definition leave (e : Event) (w : World) : nat * World :=
  (sent w,
   {| storage := storage w; cache := cache w; now := now w; net := net w;
      sent := S (sent w); trace := trace w ++ [e] |}).

Definition arrive (ticket : nat) (w : World) : Reply * World :=
  (net w ticket, elapse (latency (net w ticket)) w).

(** A call that is awaited at once. *)
Definition call (e : Event) (w : World) : Reply * World :=
  let (ticket, w1) := leave e w in arrive ticket w1.

(** ** Promises *)

Inductive Error : Type :=
| AxiosError (config : Request) (status : option Z)   (* of this.instance *)
| RefreshFailed (status : option Z)                   (* of the bare axios.post *)
| SyntaxError                                         (* of JSON.parse *)
| TypeError                                           (* property of null *)
| InvalidTokenError                                   (* of jwtDecode *)
| Unreachable.                                        (* past the bound of instance_at *)

Inductive Settled (A : Type) : Type :=
| Ok (a : A)
| Throw (e : Error).
Arguments Ok {A} a.
Arguments Throw {A} e.

Definition Async (A : Type) : Type := World -> Settled A * World.

Definition ret {A} (a : A) : Async A := fun w => (Ok a, w).

Definition throw {A} (e : Error) : Async A := fun w => (Throw e, w).

Definition bind {A B} (m : Async A) (k : A -> Async B) : Async B :=
  fun w =>
    match m w with
    | (Ok a, w1) => k a w1
    | (Throw e, w1) => (Throw e, w1)
    end.

Definition try_catch {A} (m : Async A) (handler : Error -> Async A) : Async A :=
  fun w =>
    match m w with
    | (Ok a, w1) => (Ok a, w1)
    | (Throw e, w1) => handler e w1
    end.

Definition effect (f : World -> World) : Async unit := fun w => (Ok tt, f w).

Declare Scope async_scope.
Delimit Scope async_scope with async.
Notation "x <- m ;; k" := (bind m (fun x => k))
  (at level 100, m at next level, right associativity) : async_scope.
Notation "m ;; k" := (bind m (fun _ => k))
  (at level 100, right associativity) : async_scope.
Local Open Scope async_scope.

(** ** Token management *)

Definition storeTokens (tokens : AuthTokens) : Async unit :=
  effect (set_storage (Some (JSON tokens))).

Definition getTokens : Async (option AuthTokens) :=
  fun w =>
    match storage w with
    | None => (Ok None, w)
    | Some BadJSON => (Throw SyntaxError, w)
    | Some (JSON tokens) => (Ok (Some tokens), w)
    end.

Definition clearTokens : Async unit := effect (set_storage None).

(** [`${v}`] in a template literal. *)
Definition template (v : option string) : string := default "undefined" v.

(** What axios settles a reply to: it rejects a status outside 2xx. *)
Definition is_2xx (status : Z) : bool := (200 <=? status) && (status <? 300).

Definition settle (failure : option Z -> Error) (reply : Reply) : Settled Data :=
  match outcome reply with
  | Response status d =>
      if is_2xx status then Ok d else Throw (failure (Some status))
  | NoResponse => Throw (failure None)
  end.

(** The bare [axios.post] of [refreshToken]. *)
Definition axios_post (refresh_token : option string) : Async Data :=
  fun w =>
    let (reply, w1) := call (RefreshPost refresh_token) w in
    (settle RefreshFailed reply, w1).

(** [response.data.access] *)
Definition data_access (d : Data) : Async (option string) :=
  match d with
  | DNull => throw TypeError
  | DVal a _ => ret a
  end.

(** The [try] of [refreshToken], around the response it awaits, and its
    [catch]. *)
Definition refresh_with (tokens : option AuthTokens) (response : Async Data) : Async bool :=
  try_catch
    (d <- response ;;
     a <- data_access d ;;
     storeTokens {| access := a; refresh := tokens ≫= refresh |} ;;
     ret true)
    (fun _ => clearTokens ;; ret false).

Definition refreshToken : Async bool :=
  tokens <- getTokens ;;
  if negb (truthy_str (tokens ≫= refresh)) then ret false
  else refresh_with tokens (axios_post (tokens ≫= refresh)).

(** ** The client *)

(** The payload [jwtDecode] returns, with the claim the client reads. *)
Record JwtPayload : Type := {
  exp : option Z
}.

Section Client.

(** [this.config], as the constructor left it. *)
Variable config : ApiClientConfig.

(** [jwtDecode] of the package [jwt-decode]; [None] when it throws. *)
Variable jwtDecode : string -> option JwtPayload.

(** [decoded.exp >= Date.now() / 1000], on integers. *)
Definition not_expired (decoded : JwtPayload) (date_now : Z) : bool :=
  match exp decoded with
  | Some e => date_now <=? e * 1000
  | None => false
  end.

Definition isAccessTokenValid : Async bool :=
  tokens <- getTokens ;;
  if negb (truthy_str (tokens ≫= access)) then ret false
  else
    try_catch
      (match jwtDecode (template (tokens ≫= access)) with
       | None => throw InvalidTokenError
       | Some decoded => fun w => (Ok (not_expired decoded (now w)), w)
       end)
      (fun _ => ret false).

(** *** Interceptors *)

Definition with_Authorization (h : string) (c : Request) : Request :=
  {| method := method c; url := url c; params := params c; body := body c;
     Authorization := Some h; _retry := _retry c |}.

Definition with_retry_flag (c : Request) : Request :=
  {| method := method c; url := url c; params := params c; body := body c;
     Authorization := Authorization c; _retry := true |}.

(** Request interceptor: attach the stored access token. *)
Definition requestInterceptor (c : Request) : Async Request :=
  tokens <- getTokens ;;
  if truthy_str (tokens ≫= access)
  then ret (with_Authorization ("Bearer " +:+ template (tokens ≫= access)) c)
  else ret c.

(** The transport behind the interceptors. *)
Definition dispatchRequest (c : Request) : Async Data :=
  fun w =>
    let (reply, w1) := call (Dispatch c) w in
    (settle (AxiosError c) reply, w1).

(** [error.config] and [error.response?.status] *)
Definition error_config (e : Error) : option Request :=
  match e with
  | AxiosError c _ => Some c
  | _ => None
  end.

Definition error_status (e : Error) : option Z :=
  match e with
  | AxiosError _ s => s
  | _ => None
  end.

Definition is_401 (e : Error) : bool :=
  match error_status e with
  | Some s => s =? 401
  | None => false
  end.

(** [if (this.config.onAuthError) this.config.onAuthError()] *)
Definition call_onAuthError : Async unit :=
  match read (onAuthError config) with
  | Some _ => effect (emit AuthError)
  | None => ret tt
  end.

(** Response interceptor, on a rejected request.  [instance] is
    [this.instance].  Setting [_retry] on [originalRequest] sets it on
    [error.config], the same object.  The [try] block ends either in
    [return this.instance(originalRequest)], whose rejection the [catch]
    does not see, or falls through to [Promise.reject(error)]. *)
Definition responseRejected (instance : Request -> Async Data)
    (error : Error) : Async Data :=
  match error_config error with
  | Some originalRequest =>
      if is_401 error && negb (_retry originalRequest) then
        let originalRequest := with_retry_flag originalRequest in
        let error := AxiosError originalRequest (error_status error) in
        replay <-
          try_catch
            (refreshed <- refreshToken ;;
             if refreshed : bool then
               tokens <- getTokens ;;
               ret (Some (with_Authorization
                            ("Bearer " +:+ template (tokens ≫= access))
                            originalRequest))
             else ret None)
            (fun _ => clearTokens ;; call_onAuthError ;; ret None) ;;
        match replay with
        | Some c => instance c
        | None => throw error
        end
      else throw error
  | None => throw error
  end.

(** [this.instance(config)]: request interceptor, transport, response
    interceptor.  The interceptor calls [this.instance] again, on a request
    that carries [_retry]; [depth] bounds that nesting. *)
Fixpoint instance_at (depth : nat) (c : Request) : Async Data :=
  try_catch
    (c1 <- requestInterceptor c ;; dispatchRequest c1)
    (responseRejected
       (match depth with
        | O => fun _ => throw Unreachable
        | S d => instance_at d
        end)).

Definition instance : Request -> Async Data := instance_at 1.

(** *** Generic request method *)
Definition request (c : Request) : Async Data :=
  try_catch (instance c) (fun error => throw error).

End Client.

(** ** Retry helper *)

(** The longest delay a timer takes: [2^31 - 1] ms, the delay being kept
    in a signed 32-bit integer. *)
Definition TIMEOUT_MAX : Z := 2147483647.

(** The time a timer set to [ms] runs for: [ms] itself from [1] to
    [TIMEOUT_MAX]; a delay below or above is not taken, and the timer
    runs for 1 ms (Node: [if (!(after >= 1 && after <= TIMEOUT_MAX))
    after = 1]). *)
Definition timer_duration (ms : Z) : Z :=
  if (1 <=? ms) && (ms <=? TIMEOUT_MAX) then ms else 1.

(** [await new Promise(resolve => setTimeout(resolve, ms))]: the timer is
    set with the delay it is given, and the time it runs for passes. *)
Definition setTimeout (ms : Z) (w : World) : World :=
  elapse (timer_duration ms) (emit (SetTimeout ms) w).

(** Case analysis that keeps the equation of the test. *)
Definition inspect {A : Type} (x : A) : {y : A | x = y} := exist _ x eq_refl.

Equations? withRetry {T : Type} (requestFn : Async T)
    (retryCount retryDelay : Z) (w : World) : Settled T * World
    by wf (Z.to_nat retryCount) lt :=
  withRetry requestFn retryCount retryDelay w with requestFn w => {
    | (Ok result, w1) => (Ok result, w1)
    | (Throw error, w1) with inspect (retryCount <=? 0) => {
      | exist _ true _ => (Throw error, w1)
      | exist _ false positive =>
          withRetry requestFn (retryCount - 1) (retryDelay * 2)
            (setTimeout retryDelay w1) } }.
Proof. apply Z.leb_gt in positive. lia. Qed.

(** ** GET request with caching and retries *)

Section Verbs.

Variable config : ApiClientConfig.

(** [this.cache[cacheKey] && this.cache[cacheKey].expiry > Date.now()],
    under [useCache &&]. *)
Definition cached (use : option bool) (key : string) (w : World) : option Data :=
  if truthy_bool use then
    match cache w !! key with
    | Some entry => if now w <? expiry entry then Some (data entry) else None
    | None => None
    end
  else None.

(** [this.cache[cacheKey] = { data: result, expiry: Date.now() + cacheTime }] *)
Definition cache_populate (key : string) (result : Data) (ttl : Z) : Async unit :=
  fun w =>
    (Ok tt,
     set_cache (<[key := {| data := result; expiry := now w + ttl |}]> (cache w)) w).

(** [{ ...axiosConfig, method: 'get', url }] *)
Definition get_config (url : string) (options : RequestOptions) : Request :=
  {| method := GET; url := url; params := opt_params options;
     body := None; Authorization := None; _retry := false |}.

Definition get (url : string) (options : RequestOptions) : Async Data :=
  let useCache := useCache config options in
  let cacheTime := cacheTime config options in
  let shouldRetry := shouldRetry config options in
  let maxRetries := maxRetries config options in
  let delay := delay config options in
  let cacheKey := cacheKey url options in
  fun w =>
    match cached useCache cacheKey w with
    | Some d => (Ok d, w)
    | None =>
        let requestFn := request config (get_config url options) in
        (result <- (if truthy_bool shouldRetry
                    then withRetry requestFn maxRetries delay
                    else requestFn) ;;
         (if truthy_bool useCache
          then cache_populate cacheKey result cacheTime
          else ret tt) ;;
         ret result) w
    end.

End Verbs.

(** ** Concurrent calls of [refreshToken] *)

(** Requests in flight share the client.  An [async] function runs, when
    called, up to its first [await], and the rest when what it awaits
    settles; between the two, other tasks run.  [refreshToken] has one
    [await], on [axios.post]. *)
Inductive Task : Type :=
| Pending                                           (* a 401 handler about to call refreshToken() *)
| Awaiting (tokens : option AuthTokens) (ticket : nat) (* suspended on axios.post *)
| Returned (result : Settled bool).

(** The call, up to the [await]. *)
Definition refresh_enter (w : World) : Task * World :=
  match getTokens w with
  | (Throw e, w1) => (Returned (Throw e), w1)
  | (Ok tokens, w1) =>
      if negb (truthy_str (tokens ≫= refresh)) then (Returned (Ok false), w1)
      else
        let (ticket, w2) := leave (RefreshPost (tokens ≫= refresh)) w1 in
        (Awaiting tokens ticket, w2)
  end.

(** The rest, when the reply is in. *)
Definition refresh_resume (tokens : option AuthTokens) (ticket : nat) : Async bool :=
  refresh_with tokens
    (fun w => let (reply, w1) := arrive ticket w in (settle RefreshFailed reply, w1)).

(** The event loop runs task [i] up to its next suspension. *)
Definition step (i : nat) (s : World * list Task) : World * list Task :=
  let (w, tasks) := s in
  match tasks !! i with
  | Some Pending =>
      let (t, w1) := refresh_enter w in (w1, <[i := t]> tasks)
  | Some (Awaiting tokens ticket) =>
      let (r, w1) := refresh_resume tokens ticket w in
      (w1, <[i := Returned r]> tasks)
  | _ => s
  end.

Definition run (schedule : list nat) (s : World * list Task) : World * list Task :=
  foldl (fun s i => step i s) s schedule.

(** ** POST, PUT, PATCH and DELETE requests with retries *)

Section WriteVerbs.

Variable config : ApiClientConfig.

(** [{ ...axiosConfig, method, url, data }]; [cache] and [cacheDuration]
    stay among the axios options, where nothing reads them. *)
Definition write_config (m : Method) (url : string) (data : option string)
    (options : RequestOptions) : Request :=
  {| method := m; url := url; params := opt_params options;
     body := data; Authorization := None; _retry := false |}.

Definition post (url : string) (data : option string)
    (options : RequestOptions) : Async Data :=
  let shouldRetry := shouldRetry config options in
  let maxRetries := maxRetries config options in
  let delay := delay config options in
  let requestFn := request config (write_config POST url data options) in
  if truthy_bool shouldRetry
  then withRetry requestFn maxRetries delay
  else requestFn.

Definition put (url : string) (data : option string)
    (options : RequestOptions) : Async Data :=
  let shouldRetry := shouldRetry config options in
  let maxRetries := maxRetries config options in
  let delay := delay config options in
  let requestFn := request config (write_config PUT url data options) in
  if truthy_bool shouldRetry
  then withRetry requestFn maxRetries delay
  else requestFn.

Definition patch (url : string) (data : option string)
    (options : RequestOptions) : Async Data :=
  let shouldRetry := shouldRetry config options in
  let maxRetries := maxRetries config options in
  let delay := delay config options in
  let requestFn := request config (write_config PATCH url data options) in
  if truthy_bool shouldRetry
  then withRetry requestFn maxRetries delay
  else requestFn.

Definition delete (url : string) (options : RequestOptions) : Async Data :=
  let shouldRetry := shouldRetry config options in
  let maxRetries := maxRetries config options in
  let delay := delay config options in
  let requestFn := request config (write_config DELETE url None options) in
  if truthy_bool shouldRetry
  then withRetry requestFn maxRetries delay
  else requestFn.

End WriteVerbs.

(** ** authServices.ts *)

Section AuthService.

(** [this.apiClient.config] *)
Variable config : ApiClientConfig.

Variable jwtDecode : string -> option JwtPayload.

(** [this.apiClient.config.authEndpoints?.logout] *)
Variable logout_endpoint : option string.

(** The body [{ refresh: tokens.refresh }], as axios sends it. *)
Definition refresh_body (r : option string) : string :=
  JSON_stringify [("refresh", PStr (template r))].

Definition logout : Async unit :=
  tokens <- getTokens ;;
  (if truthy_str (tokens ≫= refresh) && truthy_str logout_endpoint
   then
     try_catch
       (post config (template logout_endpoint)
          (Some (refresh_body (tokens ≫= refresh))) no_options ;;
        ret tt)
       (fun _ => ret tt)
   else ret tt) ;;
  clearTokens.

Definition isAuthenticated : Async bool := isAccessTokenValid jwtDecode.

Definition getCurrentUser : Async Data := get config "/auth/user/" no_options.

End AuthService.

(** ** The memory storage of the constructor *)

(** The names every object literal inherits from [Object.prototype]:
    reading one of them on [data] finds a member that is not a string of
    the store. *)
Definition Object_prototype : list string :=
  ["constructor"; "hasOwnProperty"; "isPrototypeOf"; "propertyIsEnumerable";
   "toLocaleString"; "toString"; "valueOf"; "__proto__";
   "__defineGetter__"; "__defineSetter__"; "__lookupGetter__";
   "__lookupSetter__"].

(** What [getItem] returns: [null], a stored string, or an inherited
    member. *)
Inductive Stored : Type :=
| Null
| Text (value : string)
| Inherited.

(** [this.data[key] || null] on the own properties [data]. *)
Definition getItem (key : string) (data : gmap string string) : Stored :=
  match data !! key with
  | Some value => if String.eqb value EmptyString then Null else Text value
  | None => if bool_decide (key ∈ Object_prototype) then Inherited else Null
  end.

(** [this.data[key] = value]; assigning a string to [__proto__] is
    ignored by its setter. *)
Definition setItem (key value : string) (data : gmap string string) : gmap string string :=
  if String.eqb key "__proto__" then data else <[key := value]> data.

(** [delete this.data[key]] *)
Definition removeItem (key : string) (data : gmap string string) : gmap string string :=
  base.delete key data.

(** * Vocabulary of the statements *)

(** ** Retries *)

(** The timers of a trace, in order. *)
Definition timers (t : list Event) : list Z :=
  omap (fun e => match e with SetTimeout ms => Some ms | _ => None end) t.

(** [d; 2d; 4d; ...], [n] delays. *)
Fixpoint backoff (d : Z) (n : nat) : list Z :=
  match n with
  | O => []
  | S k => d :: backoff (d * 2) k
  end.

(** [fails_in_a_row op n d w w']: started in [w], [op] fails [n] times,
    each failure followed by a wait that starts at [d] and doubles; [w']
    is the world in which the next attempt starts. *)
Inductive fails_in_a_row {T : Type} (op : Async T) : nat -> Z -> World -> World -> Prop :=
| fails_none d w : fails_in_a_row op O d w w
| fails_again n d w error w1 w' :
    op w = (Throw error, w1) ->
    fails_in_a_row op n (d * 2) (setTimeout d w1) w' ->
    fails_in_a_row op (S n) d w w'.

(** A delay the timer takes as it is. *)
Definition timer_takes (ms : Z) : Prop := 1 <= ms <= TIMEOUT_MAX.

(** The world [ms] after [w], with the timer that ran meanwhile in the
    trace: what a wait of [ms] is, in the words of the backoff. *)
Definition after_wait (ms : Z) (w : World) : World :=
  {| storage := storage w; cache := cache w; now := now w + ms;
     net := net w; sent := sent w;
     trace := trace w ++ [SetTimeout ms] |}.

(** [fails_and_waits op n d w w']: started in [w], [op] fails [n] times;
    the attempt after a failure starts when the clock is past the
    failure by the delay, which is [d] after the first failure and doubles
    from one failure to the next, every delay being one the timer takes.
    [w'] is the world in which the attempt after the [n]-th failure
    starts. *)
Inductive fails_and_waits {T : Type} (op : Async T) : nat -> Z -> World -> World -> Prop :=
| waits_none d w : fails_and_waits op O d w w
| waits_again n d w error w1 w' :
    op w = (Throw error, w1) ->
    timer_takes d ->
    fails_and_waits op n (d * 2) (after_wait d w1) w' ->
    fails_and_waits op (S n) d w w'.

(** An operation that sets no timer of its own. *)
Definition sets_no_timer {T : Type} (op : Async T) : Prop :=
  forall w, timers (trace (snd (op w))) = timers (trace w).

(** ** The token store, as a request finds it *)

(** The stored item parses. *)
Definition parses (w : World) : Prop := storage w <> Some BadJSON.

(** [tokens?.access] of the stored item. *)
Definition stored_access (w : World) : option string :=
  match storage w with
  | Some (JSON tokens) => access tokens
  | _ => None
  end.

Definition stored_refresh (w : World) : option string :=
  match storage w with
  | Some (JSON tokens) => refresh tokens
  | _ => None
  end.

Definition stored_tokens (w : World) : option AuthTokens :=
  match storage w with
  | Some (JSON tokens) => Some tokens
  | _ => None
  end.

(** The request as the request interceptor sends it. *)
Definition authorized (a : option string) (c : Request) : Request :=
  if truthy_str a then with_Authorization ("Bearer " +:+ template a) c else c.

(** The request [this.instance] is called with after a refresh: flagged,
    and carrying the access token now stored. *)
Definition replayed (a : option string) (c1 : Request) : Request :=
  with_Authorization ("Bearer " +:+ template a) (with_retry_flag c1).

(** The reply to a refresh that [refreshToken] can use: a 2xx status and
    data from which [access] can be read. *)
Definition usable (reply : Reply) : bool :=
  match outcome reply with
  | Response status (DVal _ _) => is_2xx status
  | _ => false
  end.

(** ** What the pipeline leaves alone *)

(** [frame w w']: from [w] to [w'] the cache and the network are the
    same, and the trace has only grown. *)
Record frame (w w' : World) : Prop := {
  frame_cache : cache w' = cache w;
  frame_net : net w' = net w;
  frame_trace : exists l, trace w' = trace w ++ l
}.

Definition framed {A : Type} (m : Async A) : Prop :=
  forall w, frame w (snd (m w)).

(** ** The dispatch step of [get] *)

Section Steps.

Variable config : ApiClientConfig.

(** Step 3 of [get]: the request function, under the retry helper when
    retries are on. *)
Definition dispatch_step (url : string) (options : RequestOptions) : Async Data :=
  if truthy_bool (shouldRetry config options)
  then withRetry (request config (get_config url options))
         (maxRetries config options) (delay config options)
  else request config (get_config url options).

End Steps.

(** ** Counting in a trace, and tasks that have entered *)

(** Calls made to the refresh endpoint, and requests sent, in a trace. *)
Definition is_refresh_post (e : Event) : bool :=
  match e with
  | RefreshPost _ => true
  | _ => false
  end.

Definition is_dispatch (e : Event) : bool :=
  match e with
  | Dispatch _ => true
  | _ => false
  end.

Definition refresh_posts (t : list Event) : nat :=
  length (List.filter is_refresh_post t).

Definition dispatches (t : list Event) : nat :=
  length (List.filter is_dispatch t).

Definition rejected_with_401 {A : Type} (out : Settled A) : bool :=
  match out with
  | Throw e => is_401 e
  | Ok _ => false
  end.

(** The world after [k] tasks have entered [refreshToken], one after the
    other, none of the replies being in. *)
Definition entered (k : nat) (w : World) : World :=
  {| storage := storage w; cache := cache w; now := now w; net := net w;
     sent := sent w + k;
     trace := trace w ++ replicate k (RefreshPost (stored_refresh w)) |}.

Definition waiting (w : World) (i : nat) : Task :=
  Awaiting (stored_tokens w) (sent w + i).

(** After all [N] tasks have entered: every task is still waiting for
    its own reply, or has returned what that reply made of it. *)
Definition all_entered (N : nat) (w : World) (s : World * list Task) : Prop :=
  net (fst s) = net w /\
  trace (fst s) = trace (entered N w) /\
  length (snd s) = N /\
  forall i, (i < N)%nat ->
    snd s !! i = Some (waiting w i) \/
    snd s !! i = Some (Returned (Ok (usable (net w (sent w + i)%nat)))).

(** ** Reading a serialization back *)

Definition hex_value (c : ascii) : option N :=
  let n := N_of_ascii c in
  if (48 <=? n)%N && (n <=? 57)%N then Some (n - 48)%N
  else if (97 <=? n)%N && (n <=? 102)%N then Some (n - 87)%N
  else None.

(** The character at the head of an escaped text, and the rest; nothing at
    a quotation mark. *)
Definition unescape_char (s : string) : option (ascii * string) :=
  match s with
  | EmptyString => None
  | String c r =>
      if Ascii.eqb c dquote then None
      else if Ascii.eqb c backslash then
        match r with
        | String e r1 =>
            if Ascii.eqb e "b" then Some (ascii_of_N 8, r1)
            else if Ascii.eqb e "t" then Some (ascii_of_N 9, r1)
            else if Ascii.eqb e "n" then Some (ascii_of_N 10, r1)
            else if Ascii.eqb e "f" then Some (ascii_of_N 12, r1)
            else if Ascii.eqb e "r" then Some (ascii_of_N 13, r1)
            else if Ascii.eqb e "u" then
              match r1 with
              | String _ (String _ (String h (String l r2))) =>
                  match hex_value h, hex_value l with
                  | Some a, Some b => Some (ascii_of_N (16 * a + b), r2)
                  | _, _ => None
                  end
              | _ => None
              end
            else Some (e, r1)
        | EmptyString => None
        end
      else Some (c, r)
  end.

(** The characters of a printed integer. *)
Definition numeric (c : ascii) : bool :=
  let n := N_of_ascii c in
  ((48 <=? n)%N && (n <=? 57)%N) || (n =? 45)%N.

Fixpoint all_chars (P : ascii -> bool) (s : string) : bool :=
  match s with
  | EmptyString => true
  | String c r => P c && all_chars P r
  end.

(** A text that a run of [P] characters cannot run into. *)
Definition stops (P : ascii -> bool) (s : string) : bool :=
  match s with
  | EmptyString => true
  | String c _ => negb (P c)
  end.

(** What follows a value in an object: [,] or [}]. *)
Definition closes_value (t : string) : Prop :=
  exists r, t = String "," r \/ t = String "}" r.

(** A scanner for the texts [JSON_stringify] writes: where in an object
    the text read so far has left it. *)
Inductive Scan : Type :=
| AtStart | AtOpen | InKey | InKeyEscape | AtColon | AtValue
| InString | InStringEscape | InLiteral | AfterValue | AfterComma
| AtEnd | Lost.

Inductive CharClass : Type :=
| CQuote | CBackslash | COpen | CClose | CColon | CComma | CLiteral | COther.

(** The characters of [null], [true], [false] and of the integers. *)
Definition literal (c : ascii) : bool :=
  let n := N_of_ascii c in
  numeric c || ((97 <=? n)%N && (n <=? 122)%N).

Definition classify (c : ascii) : CharClass :=
  let n := N_of_ascii c in
  if (n =? 34)%N then CQuote
  else if (n =? 92)%N then CBackslash
  else if (n =? 123)%N then COpen
  else if (n =? 125)%N then CClose
  else if (n =? 58)%N then CColon
  else if (n =? 44)%N then CComma
  else if literal c then CLiteral
  else COther.

Definition scan_class (q : Scan) (k : CharClass) : Scan :=
  match q, k with
  | AtStart, COpen => AtOpen
  | AtOpen, CQuote => InKey
  | AtOpen, CClose => AtEnd
  | InKey, CQuote => AtColon
  | InKey, CBackslash => InKeyEscape
  | InKey, _ => InKey
  | InKeyEscape, _ => InKey
  | AtColon, CColon => AtValue
  | AtValue, CQuote => InString
  | AtValue, CLiteral => InLiteral
  | InString, CQuote => AfterValue
  | InString, CBackslash => InStringEscape
  | InString, _ => InString
  | InStringEscape, _ => InString
  | InLiteral, CLiteral => InLiteral
  | InLiteral, CComma => AfterComma
  | InLiteral, CClose => AtEnd
  | AfterValue, CComma => AfterComma
  | AfterValue, CClose => AtEnd
  | AfterComma, CQuote => InKey
  | _, _ => Lost
  end.

Fixpoint scan (q : Scan) (s : string) : Scan :=
  match s with
  | EmptyString => q
  | String c r => scan (scan_class q (classify c)) r
  end.

(** Two scans of one text, one of them started inside the other's text,
    cannot both be at the end: while they run, one of them is inside a
    string and the other is not. *)
Definition in_string (q : Scan) : bool :=
  match q with
  | InKey | InString => true
  | _ => false
  end.

Definition structural (q : Scan) : bool :=
  match q with
  | AtOpen | AtColon | AtValue | InLiteral | AfterValue | AfterComma | AtEnd => true
  | _ => false
  end.

Definition apart (q1 q2 : Scan) : bool :=
  match q1, q2 with
  | Lost, _ | _, Lost => true
  | AtStart, _ => false
  | _, AtStart => true
  | _, _ => (in_string q1 && structural q2) || (structural q1 && in_string q2)
  end.

(** The scan has read a value. *)
Definition value_read (q : Scan) : Prop := q = InLiteral \/ q = AfterValue.

(** ** Parameter objects *)

(** The properties of a literal whose keys are not array indices, in the
    order they are written. *)
Definition named_properties (literal : list (string * ParamValue)) :
    list (string * ParamValue) :=
  filter (fun kv => array_index (fst kv) = None) literal.

(** A literal that writes every key once, and not [__proto__]. *)
Definition distinct_keys (literal : list (string * ParamValue)) : Prop :=
  NoDup (fst <$> literal) /\ "__proto__" ∉ fst <$> literal.

(** An integer that a JavaScript number holds exactly, and that
    [JSON.stringify] writes digit by digit: [|n| <= 2^53 - 1]. *)
Definition safe_integer (n : Z) : bool :=
  (- 9007199254740991 <=? n) && (n <=? 9007199254740991).

(** Parameters whose numbers are safe integers. *)
Definition safe_numbers (p : Params) : Prop :=
  Forall (fun kv => match snd kv with
                    | PNum n => safe_integer n = true
                    | _ => True
                    end) p.

(** The order of enumeration as a relation on properties: an array index
    before a larger one and before every other key. *)
Definition enumerated_before (a b : string * ParamValue) : Prop :=
  match array_index (fst a), array_index (fst b) with
  | Some i, Some j => (i < j)%N
  | Some _, None => True
  | None, Some _ => False
  | None, None => True
  end.

(** ** Worlds and clients of the examples *)

(** A server that does not know the path. *)
Definition not_found : Outcome := Response 404 DNull.


Definition reply_of (o : Outcome) : Reply := {| latency := 10; outcome := o |}.

(** A network that answers the [k]-th call with the [k]-th outcome of a
    list, and with no response after that. *)
Definition scripted (l : list Outcome) (k : nat) : Reply :=
  reply_of (List.nth k l NoResponse).

Definition world_of (s : option Item) (replies : nat -> Reply) : World :=
  {| storage := s; cache := ∅; now := 0; net := replies; sent := 0; trace := [] |}.

Definition signed_in : option Item :=
  Some (JSON {| access := Some "a"; refresh := Some "r" |}).

Definition unauthorized : Outcome := Response 401 DNull.
Definition server_error : Outcome := Response 500 DNull.
Definition new_access : Outcome := Response 200 (DVal (Some "a2") "tokens").
Definition items : Outcome := Response 200 (DVal None "items").

(** [new ApiClient({ baseURL })], and the same with a callback. *)
Definition default_client : ApiClientConfig :=
  constructor {| enableCache := Absent; cacheDuration := Absent;
                 enableRetry := Absent; retryCount := Absent;
                 retryDelay := Absent; onAuthError := Absent |}.

Definition client_with_callback : ApiClientConfig :=
  constructor {| enableCache := Absent; cacheDuration := Absent;
                 enableRetry := Absent; retryCount := Absent;
                 retryDelay := Absent; onAuthError := Val tt |}.

(** A server that rejects every request with 401 and accepts every
    refresh: of the calls of [get], every third is a refresh. *)
Definition expired_session (k : nat) : Reply :=
  reply_of (if (k mod 3 =? 1)%nat then new_access else unauthorized).

(** The scenario of the cache: [enableCache: true, cacheDuration: 1000],
    [get('/items/', { params: { page: 1 } })] three times. *)
Definition caching_client : ApiClientConfig :=
  constructor {| enableCache := Val true; cacheDuration := Val 1000;
                 enableRetry := Absent; retryCount := Absent;
                 retryDelay := Absent; onAuthError := Absent |}.

Definition page_1 : RequestOptions :=
  {| opt_cache := None; opt_cacheDuration := None; opt_retry := None;
     opt_retryCount := None; opt_retryDelay := None;
     opt_params := Some [("page", PNum 1)] |}.

(** A decoder for the examples: two tokens it knows, and nothing else. *)
Definition toy_jwtDecode (token : string) : option JwtPayload :=
  if String.eqb token "past" then Some {| exp := Some 1000 |}
  else if String.eqb token "future" then Some {| exp := Some 3000 |}
  else None.

Definition holding (token : string) : World :=
  {| storage := Some (JSON {| access := Some token; refresh := Some "r" |});
     cache := ∅; now := 2000 * 1000; net := scripted []; sent := 0; trace := [] |}.

Definition with_params (p : Params) : RequestOptions :=
  {| opt_cache := None; opt_cacheDuration := None; opt_retry := None;
     opt_retryCount := None; opt_retryDelay := None; opt_params := Some p |}.

(** ** What one request exchanges with the network *)

(** The events of one call of [request]: nothing, one dispatch, a
    dispatch and a refresh, or a dispatch, a refresh and the replay. *)
Inductive exchange : list Event -> Prop :=
| nothing_sent : exchange []
| sent_once c1 : exchange [Dispatch c1]
| refresh_refused c1 r : exchange [Dispatch c1; RefreshPost r]
| refreshed_and_replayed c1 r c2 :
    exchange [Dispatch c1; RefreshPost r; Dispatch c2].

Definition is_auth_error (e : Event) : bool :=
  match e with
  | AuthError => true
  | _ => false
  end.

(** Calls of [onAuthError] in a trace. *)
Definition auth_errors (t : list Event) : nat :=
  length (List.filter is_auth_error t).

(** The sum of the waits. *)
Definition total (l : list Z) : Z := foldr Z.add 0 l.


(** ** The retry wrapper of the verbs *)

(** [shouldRetry ? await this.withRetry(requestFn, maxRetries, delay)
    : await requestFn()], the last statement of every verb. *)
Definition with_retries {T : Type} (shouldRetry : option bool)
    (maxRetries delay : Z) (requestFn : Async T) : Async T :=
  if truthy_bool shouldRetry
  then withRetry requestFn maxRetries delay
  else requestFn.

(** The four verbs that write, called on one path with one body and one
    set of options. *)
Definition write_verbs (config : ApiClientConfig) (url : string)
    (data : option string) (options : RequestOptions) : list (Async Data) :=
  [post config url data options; put config url data options;
   patch config url data options; delete config url options].

(** ** Worlds of the further examples *)

(** The user the server returns, and its answer to a logout. *)
Definition current_user : Outcome := Response 200 (DVal None "user").
Definition logged_out : Outcome := Response 205 DNull.

(** [authEndpoints: { logout: '/auth/logout/' }] *)
Definition logout_path : option string := Some "/auth/logout/".
(** * Properties *)

(** ** Option resolution *)

Lemma or_lit_nonzero (a : option Z) (k : Z) : k <> 0 -> or_lit a k <> 0.
Proof.
  intros Hk. destruct a as [v|]; simpl; [|exact Hk].
  destruct (v =? 0) eqn:E; [exact Hk|]. now apply Z.eqb_neq.
Qed.

(** The boolean options are tested against [undefined]: a per-call
    [false] is honoured. *)
Lemma useCache_per_call (config : ApiClientConfig) (options : RequestOptions) (b : bool) :
  opt_cache options = Some b -> useCache config options = Some b.
Proof. unfold useCache. now intros ->. Qed.

Lemma shouldRetry_per_call (config : ApiClientConfig) (options : RequestOptions) (b : bool) :
  opt_retry options = Some b -> shouldRetry config options = Some b.
Proof. unfold shouldRetry. now intros ->. Qed.

(** The numeric options go through [||]: a per-call value is honoured
    when it is not [0]. *)
Lemma numeric_per_call (config : ApiClientConfig) (options : RequestOptions) (v : Z) :
  v <> 0 ->
  (opt_cacheDuration options = Some v -> cacheTime config options = v) /\
  (opt_retryCount options = Some v -> maxRetries config options = v) /\
  (opt_retryDelay options = Some v -> delay config options = v).
Proof.
  intros Hv. apply Z.eqb_neq in Hv.
  unfold cacheTime, maxRetries, delay, or_num, or_lit, truthy_num.
  repeat split; intros ->; simpl; rewrite Hv; simpl; now rewrite Hv.
Qed.

(** Unset per-call options fall back to the client's values, and those to
    the literals of [get], whatever the constructor was given. *)
Lemma numeric_fallback (config : ApiClientConfig) :
  let this_config := constructor config in
  cacheTime this_config no_options = or_lit (read (spread (Val 300000) (cacheDuration config))) 300000 /\
  maxRetries this_config no_options = or_lit (read (spread (Val 3) (retryCount config))) 3 /\
  delay this_config no_options = or_lit (read (spread (Val 1000) (retryDelay config))) 1000.
Proof. repeat split. Qed.

Lemma hardcoded_defaults (config : ApiClientConfig) :
  (read (cacheDuration config) = None -> cacheTime (constructor config) no_options = 5 * 60 * 1000) /\
  (read (retryCount config) = None -> maxRetries (constructor config) no_options = 3) /\
  (read (retryDelay config) = None -> delay (constructor config) no_options = 1000).
Proof.
  unfold cacheTime, maxRetries, delay, constructor; simpl.
  repeat split.
  - destruct (cacheDuration config); simpl; intros; congruence.
  - destruct (retryCount config); simpl; intros; congruence.
  - destruct (retryDelay config); simpl; intros; congruence.
Qed.

(** Whatever the call and the client say, the resolved numbers are not
    [0]: a [0] is never what [get] runs with. *)
Lemma resolved_numbers_nonzero (config : ApiClientConfig) (options : RequestOptions) :
  cacheTime config options <> 0 /\
  maxRetries config options <> 0 /\
  delay config options <> 0.
Proof. repeat split; apply or_lit_nonzero; discriminate. Qed.

(** C8: evaluated at the per-call values [0]: on a client built with
    [retryCount: 5, retryDelay: 200, cacheDuration: 60000], a call with
    [{ retryCount: 0, retryDelay: 0, cacheDuration: 0 }] resolves to the
    client's values and not to the per-call ones, while the per-call
    [cache: false] and [retry: false] of the same call are honoured. *)
Theorem per_call_zero_is_overridden :
  let this_config :=
    constructor {| enableCache := Val true; cacheDuration := Val 60000;
                   enableRetry := Val true; retryCount := Val 5;
                   retryDelay := Val 200; onAuthError := Absent |} in
  let options :=
    {| opt_cache := Some false; opt_cacheDuration := Some 0;
       opt_retry := Some false; opt_retryCount := Some 0;
       opt_retryDelay := Some 0; opt_params := None |} in
  maxRetries this_config options = 5 /\
  delay this_config options = 200 /\
  cacheTime this_config options = 60000 /\
  useCache this_config options = Some false /\
  shouldRetry this_config options = Some false.
Proof. repeat split. Qed.

(** ** The retry helper *)

Lemma withRetry_step {T : Type} (requestFn : Async T)
    (retryCount retryDelay : Z) (w : World) :
  withRetry requestFn retryCount retryDelay w =
  match requestFn w with
  | (Ok result, w1) => (Ok result, w1)
  | (Throw error, w1) =>
      if retryCount <=? 0 then (Throw error, w1)
      else withRetry requestFn (retryCount - 1) (retryDelay * 2)
             (setTimeout retryDelay w1)
  end.
Proof.
  simp withRetry.
  destruct (requestFn w) as [[result|error] w1]; simpl; [reflexivity|].
  destruct (retryCount <=? 0); reflexivity.
Qed.

Lemma timers_setTimeout (d : Z) (w : World) :
  timers (trace (setTimeout d w)) = timers (trace w) ++ [d].
Proof. unfold timers; simpl. now rewrite omap_app. Qed.

Lemma fails_in_a_row_timers {T : Type} (op : Async T) n d w w' :
  sets_no_timer op ->
  fails_in_a_row op n d w w' ->
  timers (trace w') = timers (trace w) ++ backoff d n.
Proof.
  intros Hop H. induction H as [d w|n d w error w1 w' Hfail _ IH]; simpl.
  - now rewrite app_nil_r.
  - rewrite IH, timers_setTimeout.
    specialize (Hop w). rewrite Hfail in Hop. simpl in Hop. rewrite Hop.
    now rewrite <- app_assoc.
Qed.

Lemma withRetry_after_failures {T : Type} (op : Async T) n d w w' (k : Z) :
  0 <= k ->
  fails_in_a_row op n d w w' ->
  withRetry op (Z.of_nat n + k) d w = withRetry op k (d * 2 ^ Z.of_nat n) w'.
Proof.
  intros Hk H. induction H as [d w|n d w error w1 w' Hfail _ IH].
  - simpl. now rewrite Z.mul_1_r.
  - rewrite withRetry_step, Hfail.
    destruct (Z.of_nat (S n) + k <=? 0) eqn:E; [apply Z.leb_le in E; lia|].
    replace (Z.of_nat (S n) + k - 1) with (Z.of_nat n + k) by lia.
    rewrite IH. f_equal.
    rewrite Nat2Z.inj_succ, Z.pow_succ_r by lia. ring.
Qed.

Lemma withRetry_exhausted {T : Type} (op : Async T) (k d : Z) (w : World) :
  k <= 0 -> withRetry op k d w = op w.
Proof.
  intros Hk. rewrite withRetry_step.
  destruct (op w) as [[result|error] w1]; [reflexivity|].
  apply Z.leb_le in Hk. now rewrite Hk.
Qed.

Lemma withRetry_last_attempt {T : Type} (op : Async T) (K d : Z) (w w' : World) :
  0 <= K ->
  fails_in_a_row op (Z.to_nat K) d w w' ->
  withRetry op K d w = op w'.
Proof.
  intros HK H.
  replace K with (Z.of_nat (Z.to_nat K) + 0) at 1 by lia.
  rewrite (withRetry_after_failures op _ d w w' 0); [|lia|exact H].
  now apply withRetry_exhausted.
Qed.

(** An operation that succeeds before its retries are used up: its result
    is returned, and the retries left are not made. *)
Lemma withRetry_succeeds_early {T : Type} (op : Async T) (j : nat) (K d : Z)
    (w w' w'' : World) (result : T) :
  Z.of_nat j <= K ->
  fails_in_a_row op j d w w' ->
  op w' = (Ok result, w'') ->
  withRetry op K d w = (Ok result, w'').
Proof.
  intros Hj H Hok.
  replace K with (Z.of_nat j + (K - Z.of_nat j)) by lia.
  rewrite (withRetry_after_failures op j d w w'); [|lia|exact H].
  now rewrite withRetry_step, Hok.
Qed.

Lemma setTimeout_takes (ms : Z) (w : World) :
  timer_takes ms -> setTimeout ms w = after_wait ms w.
Proof.
  intros [H1 H2]. unfold setTimeout, timer_duration, elapse, emit, after_wait.
  apply Z.leb_le in H1, H2. now rewrite H1, H2.
Qed.

Lemma fails_and_waits_in_a_row {T : Type} (op : Async T) n d w w' :
  fails_and_waits op n d w w' -> fails_in_a_row op n d w w'.
Proof.
  intros H. induction H as [d w|n d w error w1 w' Hfail Hd _ IH].
  - apply fails_none.
  - eapply fails_again; [exact Hfail|]. now rewrite setTimeout_takes.
Qed.

(** C4, for delays the timer takes: an operation wrapped with retry count
    [K >= 0] and initial delay [d] fails [K] times in a row, every attempt
    after a failure starting when the clock is past that failure by the
    delay, [d], then [2d], [4d], ..., each from 1 to [2^31 - 1] ms.  Then
    the attempt that starts after the last of these waits is the last one:
    what it settles to is what [withRetry] settles to, its result when it
    succeeds, its failure, unchanged, when it fails as well, whatever the
    failures were; and an operation that sets no timer of its own leaves
    the [K] timers [d; 2d; ...] in the trace. *)
Theorem withRetry_backoff {T : Type} (op : Async T) (K d : Z) (w w' : World) :
  0 <= K ->
  fails_and_waits op (Z.to_nat K) d w w' ->
  withRetry op K d w = op w' /\
  (sets_no_timer op ->
   timers (trace (snd (op w'))) = timers (trace w) ++ backoff d (Z.to_nat K)).
Proof.
  intros HK H. apply fails_and_waits_in_a_row in H. split.
  - now apply withRetry_last_attempt.
  - intros Hop. rewrite Hop. now apply (fails_in_a_row_timers op).
Qed.

(** ** Token store and refresh *)

(** [refreshToken], case by case. *)
Lemma refreshToken_cases (w : World) :
  refreshToken w =
  match storage w with
  | None => (Ok false, w)
  | Some BadJSON => (Throw SyntaxError, w)
  | Some (JSON tokens) =>
      if truthy_str (refresh tokens) then
        let (reply, w1) := call (RefreshPost (refresh tokens)) w in
        match outcome reply with
        | Response status (DVal a _) =>
            if is_2xx status
            then (Ok true,
                  set_storage (Some (JSON {| access := a; refresh := refresh tokens |})) w1)
            else (Ok false, set_storage None w1)
        | _ => (Ok false, set_storage None w1)
        end
      else (Ok false, w)
  end.
Proof.
  unfold refreshToken, bind, getTokens.
  destruct (storage w) as [[|tokens]|]; try reflexivity.
  simpl. destruct (truthy_str (refresh tokens)); simpl; [|reflexivity].
  unfold refresh_with, try_catch, bind, axios_post, settle. simpl.
  destruct (outcome (net w (sent w))) as [|status [|a content]]; simpl;
    try reflexivity; destruct (is_2xx status); reflexivity.
Qed.

Lemma getTokens_parses (w : World) :
  parses w ->
  exists tokens, getTokens w = (Ok tokens, w) /\
                 tokens ≫= access = stored_access w /\
                 tokens ≫= refresh = stored_refresh w.
Proof.
  unfold parses, getTokens, stored_access, stored_refresh.
  destruct (storage w) as [[|tokens]|]; intros H; [congruence| |]; eauto.
Qed.

Lemma requestInterceptor_cases (c : Request) (w : World) :
  requestInterceptor c w =
  match storage w with
  | Some BadJSON => (Throw SyntaxError, w)
  | _ => (Ok (authorized (stored_access w) c), w)
  end.
Proof.
  unfold requestInterceptor, bind, getTokens, authorized, stored_access.
  destruct (storage w) as [[|tokens]|]; simpl; try reflexivity.
  destruct (truthy_str (access tokens)); reflexivity.
Qed.

Lemma requestInterceptor_parses (c : Request) (w : World) :
  parses w -> requestInterceptor c w = (Ok (authorized (stored_access w) c), w).
Proof.
  unfold parses. rewrite requestInterceptor_cases.
  destruct (storage w) as [[|tokens]|]; congruence.
Qed.

Lemma authorized_retry (a : option string) (c : Request) :
  _retry (authorized a c) = _retry c.
Proof. unfold authorized. destruct (truthy_str a); reflexivity. Qed.

(** What the transport does with a request. *)
Lemma dispatchRequest_cases (c : Request) (w : World) :
  dispatchRequest c w =
  let (reply, w1) := call (Dispatch c) w in
  (match outcome reply with
   | Response status d =>
       if is_2xx status then Ok d else Throw (AxiosError c (Some status))
   | NoResponse => Throw (AxiosError c None)
   end, w1).
Proof.
  unfold dispatchRequest, settle; simpl.
  destruct (outcome (net w (sent w))) as [|status d]; [reflexivity|].
  destruct (is_2xx status); reflexivity.
Qed.

Lemma dispatchRequest_world (c : Request) (w : World) :
  snd (dispatchRequest c w) = snd (call (Dispatch c) w).
Proof.
  rewrite dispatchRequest_cases. simpl.
  reflexivity.
Qed.

Lemma dispatchRequest_error (c : Request) (w : World) (e : Error) (w1 : World) :
  dispatchRequest c w = (Throw e, w1) ->
  exists status, e = AxiosError c status.
Proof.
  rewrite dispatchRequest_cases. simpl.
  destruct (outcome (net w (sent w))) as [|status d].
  - intros [= <- _]. eauto.
  - destruct (is_2xx status); intros [= <- _]. eauto.
Qed.

Section ClientFacts.

Variable config : ApiClientConfig.

(** A request that carries [_retry] goes through the interceptors without
    reaching [this.instance] again. *)
Lemma responseRejected_flagged (inst : Request -> Async Data) (e : Error) (w : World) :
  (forall c, error_config e = Some c -> _retry c = true) ->
  responseRejected config inst e w = (Throw e, w).
Proof.
  intros H. unfold responseRejected.
  destruct (error_config e) as [c|] eqn:Ec; [|reflexivity].
  rewrite (H c eq_refl). now rewrite andb_false_r.
Qed.

Lemma instance_at_flagged (depth : nat) (c : Request) (w : World) :
  _retry c = true ->
  instance_at config depth c w =
  match requestInterceptor c w with
  | (Ok c1, w1) => dispatchRequest c1 w1
  | (Throw e, w1) => (Throw e, w1)
  end.
Proof.
  intros Hc.
  assert (H : forall inst,
    try_catch (c1 <- requestInterceptor c ;; dispatchRequest c1)
      (responseRejected config inst) w =
    match requestInterceptor c w with
    | (Ok c1, w1) => dispatchRequest c1 w1
    | (Throw e, w1) => (Throw e, w1)
    end).
  { intros inst. unfold try_catch, bind. rewrite requestInterceptor_cases.
    destruct (storage w) as [[|tokens]|].
    - now apply responseRejected_flagged.
    - destruct (dispatchRequest _ w) as [[d|e] w2] eqn:Hd; [reflexivity|].
      apply responseRejected_flagged.
      destruct (dispatchRequest_error _ _ _ _ Hd) as [s ->]; simpl.
      intros ? [= <-]. now rewrite authorized_retry.
    - destruct (dispatchRequest _ w) as [[d|e] w2] eqn:Hd; [reflexivity|].
      apply responseRejected_flagged.
      destruct (dispatchRequest_error _ _ _ _ Hd) as [s ->]; simpl.
      intros ? [= <-]. now rewrite authorized_retry. }
  destruct depth; simpl; apply H.
Qed.

Lemma instance_at_S (depth : nat) (c : Request) :
  instance_at config (S depth) c =
  try_catch (c1 <- requestInterceptor c ;; dispatchRequest c1)
    (responseRejected config (instance_at config depth)).
Proof. reflexivity. Qed.

Lemma authorized_replayed (a : option string) (c1 : Request) :
  authorized a (replayed a c1) = replayed a c1.
Proof. unfold authorized. destruct (truthy_str a); reflexivity. Qed.

Lemma refreshToken_true (w w2 : World) :
  refreshToken w = (Ok true, w2) ->
  parses w2 /\ truthy_str (stored_refresh w) = true /\
  trace w2 = trace w ++ [RefreshPost (stored_refresh w)].
Proof.
  rewrite refreshToken_cases. unfold parses, stored_refresh.
  destruct (storage w) as [[|tokens]|]; try discriminate.
  destruct (truthy_str (refresh tokens)); [|discriminate].
  simpl. destruct (outcome _) as [|status [|a content]]; try discriminate.
  destruct (is_2xx status); [|discriminate].
  intros [= <-]. simpl. repeat split. discriminate.
Qed.

Lemma refreshToken_parses (w : World) :
  parses w -> exists b w2, refreshToken w = (Ok b, w2).
Proof.
  unfold parses. rewrite refreshToken_cases.
  destruct (storage w) as [[|tokens]|]; [congruence| |eauto].
  intros _. destruct (truthy_str (refresh tokens)); [|eauto].
  simpl. destruct (outcome _) as [|status [|a content]]; eauto.
  destruct (is_2xx status); eauto.
Qed.

(** One run of the interceptors on a request that gets a 401. *)
Lemma instance_401 (c : Request) (w w1 : World) :
  _retry c = false ->
  parses w ->
  let c1 := authorized (stored_access w) c in
  dispatchRequest c1 w = (Throw (AxiosError c1 (Some 401)), w1) ->
  instance config c w =
  match refreshToken w1 with
  | (Ok true, w2) => dispatchRequest (replayed (stored_access w2) c1) w2
  | (Ok false, w2) => (Throw (AxiosError (with_retry_flag c1) (Some 401)), w2)
  | (Throw _, w2) =>
      (Throw (AxiosError (with_retry_flag c1) (Some 401)),
       snd (call_onAuthError config (set_storage None w2)))
  end.
Proof.
  intros Hc Hw c1 Hd.
  unfold instance. rewrite instance_at_S.
  unfold try_catch at 1, bind at 1.
  rewrite (requestInterceptor_parses c w Hw). fold c1. rewrite Hd.
  unfold responseRejected.
  cbn [error_config error_status].
  change (is_401 (AxiosError c1 (Some 401))) with true.
  unfold c1 at 1. rewrite authorized_retry, Hc.
  cbn [negb andb].
  unfold bind at 1, try_catch at 1, bind at 1.
  destruct (refreshToken w1) as [[[|]|e] w2] eqn:Hr.
  - destruct (refreshToken_true _ _ Hr) as (Hw2 & _ & _).
    destruct (getTokens_parses w2 Hw2) as (tokens & Hg & Ha & _).
    unfold bind. rewrite Hg. unfold ret. rewrite Ha.
    fold (replayed (stored_access w2) c1).
    now rewrite instance_at_flagged, (requestInterceptor_parses _ w2 Hw2),
      authorized_replayed.
  - reflexivity.
  - unfold bind, clearTokens, effect.
    unfold call_onAuthError. destruct (read (onAuthError config)); reflexivity.
Qed.

Lemma request_instance (c : Request) (w : World) :
  request config c w = instance config c w.
Proof.
  unfold request, try_catch. now destruct (instance config c w) as [[d|e] w1].
Qed.

(** The nesting bound of [instance_at] is never reached: the request the
    response interceptor hands back to [this.instance] carries [_retry],
    so one level of nesting is all there is, and a deeper bound changes
    nothing. *)
Lemma responseRejected_ext (inst1 inst2 : Request -> Async Data) (e : Error) (w : World) :
  (forall c w', _retry c = true -> inst1 c w' = inst2 c w') ->
  responseRejected config inst1 e w = responseRejected config inst2 e w.
Proof.
  intros Hext. unfold responseRejected.
  destruct (error_config e) as [c|]; [|reflexivity].
  destruct (is_401 e && negb (_retry c)); [|reflexivity].
  match goal with |- bind ?T _ w = _ => remember T as attempt eqn:Htry' end.
  unfold bind.
  destruct (attempt w) as [[[c2|]|e2] w2] eqn:Htry; try reflexivity.
  apply Hext.
  revert Htry. rewrite Htry'. unfold try_catch, bind.
  destruct (refreshToken w) as [[[|]|e3] w3].
  - destruct (getTokens w3) as [[tokens|e4] w4]; unfold ret.
    + now intros [= <- _].
    + destruct (clearTokens w4) as [[[]|e5] w5]; [|discriminate].
      destruct (call_onAuthError config w5) as [[[]|e6] w6]; discriminate.
  - discriminate.
  - destruct (clearTokens w3) as [[[]|e5] w5]; [|discriminate].
    destruct (call_onAuthError config w5) as [[[]|e6] w6]; discriminate.
Qed.

Lemma instance_at_depth (depth : nat) (c : Request) (w : World) :
  instance_at config (S depth) c w = instance config c w.
Proof.
  unfold instance. rewrite !instance_at_S. unfold try_catch.
  destruct ((c1 <- requestInterceptor c ;; dispatchRequest c1) w)
    as [[d|e] w1]; [reflexivity|].
  apply responseRejected_ext. intros c2 w' Hc2.
  now rewrite !instance_at_flagged.
Qed.

Lemma instance_never_unreachable (c : Request) (w : World) :
  fst (instance config c w) <> Throw Unreachable.
Proof.
  unfold instance. rewrite instance_at_S. unfold try_catch at 1, bind at 1.
  rewrite requestInterceptor_cases.
  assert (Hflag : forall c2 w2, _retry c2 = true ->
            fst (instance_at config 0 c2 w2) <> Throw Unreachable).
  { intros c2 w2 Hc2. rewrite instance_at_flagged by exact Hc2.
    rewrite requestInterceptor_cases.
    destruct (storage w2) as [[|tokens]|]; try discriminate.
    all: rewrite dispatchRequest_cases; simpl;
      destruct (outcome _) as [|status d]; try discriminate;
      destruct (is_2xx status); discriminate. }
  assert (Hrej : forall c1 w1 status,
            fst (responseRejected config (instance_at config 0)
                   (AxiosError c1 status) w1) <> Throw Unreachable).
  { intros c1 w1 status. unfold responseRejected. cbn [error_config error_status].
    destruct (is_401 _ && negb (_retry c1)); [|discriminate].
    unfold bind at 1, try_catch at 1, bind at 1.
    destruct (refreshToken w1) as [[[|]|e3] w3].
    - unfold bind. destruct (getTokens w3) as [[tokens|e4] w4]; unfold ret.
      + now apply Hflag.
      + unfold clearTokens, effect, call_onAuthError.
        destruct (read (onAuthError config)); discriminate.
    - discriminate.
    - unfold bind, clearTokens, effect, call_onAuthError.
      destruct (read (onAuthError config)); discriminate. }
  destruct (storage w) as [[|tokens]|].
  - unfold responseRejected. discriminate.
  - destruct (dispatchRequest _ w) as [[d|e] w1] eqn:Hd; [discriminate|].
    destruct (dispatchRequest_error _ _ _ _ Hd) as [status ->]. apply Hrej.
  - destruct (dispatchRequest _ w) as [[d|e] w1] eqn:Hd; [discriminate|].
    destruct (dispatchRequest_error _ _ _ _ Hd) as [status ->]. apply Hrej.
Qed.

End ClientFacts.

(** ** What the pipeline leaves alone *)

Lemma frame_refl (w : World) : frame w w.
Proof. split; try reflexivity. exists []. now rewrite app_nil_r. Qed.

Lemma frame_trans (w1 w2 w3 : World) : frame w1 w2 -> frame w2 w3 -> frame w1 w3.
Proof.
  intros [Hc1 Hn1 [l1 Ht1]] [Hc2 Hn2 [l2 Ht2]]. split; try congruence.
  exists (l1 ++ l2). now rewrite Ht2, Ht1, app_assoc.
Qed.

Lemma framed_ret {A : Type} (a : A) : framed (ret a).
Proof. intros w. apply frame_refl. Qed.

Lemma framed_throw {A : Type} (e : Error) : framed (@throw A e).
Proof. intros w. apply frame_refl. Qed.

Lemma framed_bind {A B : Type} (m : Async A) (k : A -> Async B) :
  framed m -> (forall a, framed (k a)) -> framed (bind m k).
Proof.
  intros Hm Hk w. unfold bind. specialize (Hm w).
  destruct (m w) as [[a|e] w1]; simpl in *; [|exact Hm].
  eapply frame_trans; [exact Hm|apply Hk].
Qed.

Lemma framed_try_catch {A : Type} (m : Async A) (h : Error -> Async A) :
  framed m -> (forall e, framed (h e)) -> framed (try_catch m h).
Proof.
  intros Hm Hh w. unfold try_catch. specialize (Hm w).
  destruct (m w) as [[a|e] w1]; simpl in *; [exact Hm|].
  eapply frame_trans; [exact Hm|apply Hh].
Qed.

Lemma framed_set_storage (s : option Item) : framed (effect (set_storage s)).
Proof. intros w. split; try reflexivity. exists []. simpl. now rewrite app_nil_r. Qed.

Lemma framed_emit (e : Event) : framed (effect (emit e)).
Proof. intros w. split; try reflexivity. now exists [e]. Qed.

Lemma frame_call (e : Event) (w : World) : frame w (snd (call e w)).
Proof. split; try reflexivity. now exists [e]. Qed.

Lemma frame_setTimeout (ms : Z) (w : World) : frame w (setTimeout ms w).
Proof. split; try reflexivity. now exists [SetTimeout ms]. Qed.

Lemma framed_getTokens : framed getTokens.
Proof.
  intros w. unfold getTokens.
  destruct (storage w) as [[|tokens]|]; apply frame_refl.
Qed.

Lemma framed_axios_post (r : option string) : framed (axios_post r).
Proof.
  intros w. unfold axios_post.
  pose proof (frame_call (RefreshPost r) w) as H.
  destruct (call (RefreshPost r) w) as [reply w1]. exact H.
Qed.

Lemma framed_dispatchRequest (c : Request) : framed (dispatchRequest c).
Proof. intros w. rewrite dispatchRequest_world. apply frame_call. Qed.

Create HintDb framed discriminated.
#[local] Hint Resolve framed_ret framed_throw framed_set_storage framed_emit
  framed_getTokens framed_axios_post framed_dispatchRequest : framed.
#[local] Hint Extern 2 (framed (bind _ _)) =>
  apply framed_bind; [|intros ?] : framed.
#[local] Hint Extern 2 (framed (try_catch _ _)) =>
  apply framed_try_catch; [|intros ?] : framed.
#[local] Hint Extern 3 (framed (if ?b then _ else _)) => destruct b : framed.
#[local] Hint Extern 3 (framed (match ?x with _ => _ end)) => destruct x : framed.

Lemma framed_refreshToken : framed refreshToken.
Proof.
  unfold refreshToken, refresh_with, storeTokens, clearTokens, data_access.
  auto 10 with framed.
Qed.

Lemma framed_requestInterceptor (c : Request) : framed (requestInterceptor c).
Proof. unfold requestInterceptor. auto 10 with framed. Qed.

#[local] Hint Resolve framed_refreshToken framed_requestInterceptor : framed.

Section ClientFrames.

Variable config : ApiClientConfig.

Lemma framed_call_onAuthError : framed (call_onAuthError config).
Proof. unfold call_onAuthError. auto with framed. Qed.

Lemma framed_responseRejected (inst : Request -> Async Data) (e : Error) :
  (forall c, framed (inst c)) -> framed (responseRejected config inst e).
Proof.
  intros Hinst. pose proof framed_call_onAuthError.
  unfold responseRejected, clearTokens.
  auto 12 with framed.
Qed.

Lemma framed_instance_at (depth : nat) (c : Request) :
  framed (instance_at config depth c).
Proof.
  revert c. induction depth as [|d IH]; intros c; simpl.
  - apply framed_try_catch; [auto with framed|intros e].
    apply framed_responseRejected. auto with framed.
  - apply framed_try_catch; [auto with framed|intros e].
    now apply framed_responseRejected.
Qed.

Lemma framed_request (c : Request) : framed (request config c).
Proof.
  unfold request. apply framed_try_catch; [apply framed_instance_at|].
  auto with framed.
Qed.

End ClientFrames.

Lemma framed_withRetry {T : Type} (op : Async T) (retryCount retryDelay : Z) :
  framed op -> framed (withRetry op retryCount retryDelay).
Proof.
  intros Hop w.
  remember (Z.to_nat retryCount) as n eqn:Hn.
  revert retryCount retryDelay w Hn.
  induction n as [|n IH]; intros retryCount retryDelay w Hn.
  - rewrite withRetry_exhausted by lia. apply Hop.
  - rewrite withRetry_step. specialize (Hop w).
    destruct (op w) as [[result|error] w1]; simpl in *; [exact Hop|].
    destruct (retryCount <=? 0); [exact Hop|].
    eapply frame_trans; [exact Hop|].
    eapply frame_trans; [apply frame_setTimeout|].
    apply IH. lia.
Qed.

(** ** The response cache *)

Section GetFacts.

Variable config : ApiClientConfig.

Lemma framed_dispatch_step (url : string) (options : RequestOptions) :
  framed (dispatch_step config url options).
Proof.
  unfold dispatch_step. destruct (truthy_bool _).
  - apply framed_withRetry, framed_request.
  - apply framed_request.
Qed.

Lemma get_hit (url : string) (options : RequestOptions) (w : World) (d : Data) :
  cached (useCache config options) (cacheKey url options) w = Some d ->
  get config url options w = (Ok d, w).
Proof. unfold get. now intros ->. Qed.

Lemma get_miss (url : string) (options : RequestOptions) (w : World) :
  cached (useCache config options) (cacheKey url options) w = None ->
  get config url options w =
  match dispatch_step config url options w with
  | (Ok result, w1) =>
      (Ok result,
       if truthy_bool (useCache config options)
       then set_cache (<[cacheKey url options :=
                           {| data := result;
                              expiry := now w1 + cacheTime config options |}]>
                         (cache w1)) w1
       else w1)
  | (Throw e, w1) => (Throw e, w1)
  end.
Proof.
  unfold get. intros ->. fold (dispatch_step config url options).
  unfold bind at 1.
  destruct (dispatch_step config url options w) as [[result|e] w1]; [|reflexivity].
  unfold bind, cache_populate, ret. destruct (truthy_bool _); reflexivity.
Qed.

(** The first thing a run of the interceptors does, when the stored item
    parses, is to send the request. *)
Lemma instance_sends (c : Request) (w : World) :
  parses w ->
  exists rest, trace (snd (instance config c w)) =
               trace w ++ Dispatch (authorized (stored_access w) c) :: rest.
Proof.
  intros Hw. unfold instance. rewrite instance_at_S.
  unfold try_catch, bind. rewrite (requestInterceptor_parses c w Hw).
  set (c1 := authorized (stored_access w) c).
  pose proof (dispatchRequest_world c1 w) as Hd.
  assert (Ht : trace (snd (dispatchRequest c1 w)) = trace w ++ [Dispatch c1])
    by now rewrite Hd.
  clear Hd. destruct (dispatchRequest c1 w) as [[d|e] w1]; cbn [snd] in *.
  - exists []. exact Ht.
  - destruct (framed_responseRejected config (instance_at config 0) e
                (framed_instance_at config 0) w1) as [_ _ [l Hl]].
    exists l. rewrite Hl, Ht. now rewrite <- app_assoc.
Qed.

Lemma withRetry_sends {T : Type} (op : Async T) (K d : Z) (w : World) (e : Event) :
  framed op ->
  (exists rest, trace (snd (op w)) = trace w ++ e :: rest) ->
  exists rest, trace (snd (withRetry op K d w)) = trace w ++ e :: rest.
Proof.
  intros Hop [rest Hrest]. rewrite withRetry_step.
  destruct (op w) as [[result|error] w1]; simpl in *; [eauto|].
  destruct (K <=? 0); [eauto|].
  destruct (framed_withRetry op (K - 1) (d * 2) Hop (setTimeout d w1))
    as [_ _ [l Hl]].
  exists (rest ++ SetTimeout d :: l). rewrite Hl. simpl. rewrite Hrest.
  now rewrite <- !app_assoc.
Qed.

Lemma dispatch_step_sends (url : string) (options : RequestOptions) (w : World) :
  parses w ->
  exists rest, trace (snd (dispatch_step config url options w)) =
    trace w ++ Dispatch (authorized (stored_access w) (get_config url options)) :: rest.
Proof.
  intros Hw. unfold dispatch_step. destruct (truthy_bool _).
  - apply withRetry_sends; [apply framed_request|].
    rewrite request_instance. now apply instance_sends.
  - rewrite request_instance. now apply instance_sends.
Qed.

Lemma cached_Some (use : option bool) (key : string) (w : World) (d : Data) :
  cached use key w = Some d <->
  truthy_bool use = true /\
  exists entry, cache w !! key = Some entry /\ now w < expiry entry /\ data entry = d.
Proof.
  unfold cached. destruct (truthy_bool use); [|split; [discriminate|intros [? _]; discriminate]].
  destruct (cache w !! key) as [entry|].
  - destruct (now w <? expiry entry) eqn:E.
    + apply Z.ltb_lt in E. split.
      * intros [= <-]. eauto.
      * intros (_ & entry' & [= <-] & _ & <-). reflexivity.
    + apply Z.ltb_ge in E. split; [discriminate|].
      intros (_ & entry' & [= <-] & H & _). lia.
  - split; [discriminate|]. intros (_ & entry' & [=] & _).
Qed.

(** Two calls in a row: what the first call fetched is what the second
    returns, without a request, while the clock is short of the expiry
    the first call stored. *)
Lemma get_then_get (url : string) (options : RequestOptions)
    (w w1 w2 : World) (result : Data) :
  truthy_bool (useCache config options) = true ->
  cached (useCache config options) (cacheKey url options) w = None ->
  get config url options w = (Ok result, w1) ->
  cache w2 = cache w1 ->
  now w2 < now w1 + cacheTime config options ->
  get config url options w2 = (Ok result, w2).
Proof.
  intros Huse Hmiss Hget Hsame Hlt.
  rewrite (get_miss url options w Hmiss), Huse in Hget.
  destruct (dispatch_step config url options w) as [[r|e] w']; [|discriminate].
  injection Hget as <- <-.
  apply get_hit, cached_Some. split; [exact Huse|].
  eexists. rewrite Hsame. simpl. rewrite lookup_insert_eq.
  split; [reflexivity|]. simpl in *. split; [lia|reflexivity].
Qed.

End GetFacts.

(** ** Refresh and replay *)

Lemma refreshToken_no_token (w : World) :
  parses w -> truthy_str (stored_refresh w) = false ->
  refreshToken w = (Ok false, w).
Proof.
  unfold parses, stored_refresh. rewrite refreshToken_cases.
  destruct (storage w) as [[|tokens]|]; [congruence| |reflexivity].
  now intros _ ->.
Qed.

Lemma refreshToken_token (w : World) :
  parses w -> truthy_str (stored_refresh w) = true ->
  exists (b : bool) (w' : World),
    refreshToken w = (Ok b, w') /\
    b = usable (net w (sent w)) /\
    trace w' = trace w ++ [RefreshPost (stored_refresh w)] /\
    sent w' = S (sent w) /\
    (b = false -> storage w' = None) /\
    (b = true ->
     exists status a content,
       outcome (net w (sent w)) = Response status (DVal a content) /\
       storage w' = Some (JSON {| access := a; refresh := stored_refresh w |})).
Proof.
  unfold parses, stored_refresh, usable. rewrite refreshToken_cases.
  destruct (storage w) as [[|tokens]|]; [congruence| |discriminate].
  intros _ ->. simpl.
  destruct (outcome (net w (sent w))) as [|status [|a content]].
  1,2: do 2 eexists; repeat split; try reflexivity; discriminate.
  destruct (is_2xx status); do 2 eexists; repeat split; try reflexivity;
    try discriminate.
  intros _. eauto.
Qed.

Section Replay.

Variable config : ApiClientConfig.

Lemma dispatchRequest_storage (c : Request) (w : World) :
  storage (snd (dispatchRequest c w)) = storage w /\
  trace (snd (dispatchRequest c w)) = trace w ++ [Dispatch c] /\
  sent (snd (dispatchRequest c w)) = S (sent w).
Proof. rewrite dispatchRequest_world. repeat split. Qed.

(** C2, restricted to one run of the interceptors: a request
    handed to [request] that gets a 401 leads to one call of
    [refreshToken].  When that resolves [true], the request is sent once
    more, flagged and with the access token now stored, and whatever the
    transport answers, a 401 included, is the outcome: the trace is the
    first dispatch, the refresh and the replay, nothing more.  When it
    resolves [false], the 401 is the outcome and nothing is sent again. *)
Theorem request_401_refresh_then_replay (c : Request) (w w1 : World) :
  _retry c = false ->
  parses w ->
  let c1 := authorized (stored_access w) c in
  dispatchRequest c1 w = (Throw (AxiosError c1 (Some 401)), w1) ->
  exists (refreshed : bool) (w2 : World),
    refreshToken w1 = (Ok refreshed, w2) /\
    if refreshed then
      let c2 := replayed (stored_access w2) c1 in
      request config c w = dispatchRequest c2 w2 /\
      _retry c2 = true /\
      Authorization c2 = Some ("Bearer " +:+ template (stored_access w2)) /\
      (exists status content,
         outcome (net w1 (sent w1)) = Response status (DVal (stored_access w2) content)) /\
      trace (snd (request config c w)) =
        trace w ++ [Dispatch c1; RefreshPost (stored_refresh w); Dispatch c2]
    else
      request config c w = (Throw (AxiosError (with_retry_flag c1) (Some 401)), w2) /\
      (trace w2 = trace w ++ [Dispatch c1] \/
       trace w2 = trace w ++ [Dispatch c1; RefreshPost (stored_refresh w)]).
Proof.
  intros Hc Hw c1 Hd.
  pose proof (dispatchRequest_storage c1 w) as (Hs1 & Ht1 & _).
  rewrite Hd in Hs1, Ht1. cbn [snd] in Hs1, Ht1.
  assert (Hw1 : parses w1) by (unfold parses; now rewrite Hs1).
  assert (Hr1 : stored_refresh w1 = stored_refresh w)
    by (unfold stored_refresh; now rewrite Hs1).
  pose proof (instance_401 config c w w1 Hc Hw Hd) as Hi.
  rewrite <- request_instance in Hi. fold c1 in Hi.
  destruct (truthy_str (stored_refresh w1)) eqn:Htok.
  - destruct (refreshToken_token w1 Hw1 Htok)
      as (b & w2 & Hr & _ & Ht2 & _ & _ & Hok).
    exists b, w2. split; [exact Hr|]. rewrite Hr in Hi.
    destruct b.
    + destruct (Hok eq_refl) as (status & a & content & Hout & Hst).
      assert (Ha : stored_access w2 = a)
        by (unfold stored_access; now rewrite Hst).
      repeat split; try exact Hi.
      * exists status, content. now rewrite Ha.
      * rewrite Hi. destruct (dispatchRequest_storage
          (replayed (stored_access w2) c1) w2) as (_ & -> & _).
        rewrite Ht2, Ht1, Hr1. now rewrite <- !app_assoc.
    + split; [exact Hi|]. right. rewrite Ht2, Ht1, Hr1.
      now rewrite <- app_assoc.
  - rewrite (refreshToken_no_token w1 Hw1 Htok) in Hi.
    exists false, w1. split; [now apply refreshToken_no_token|].
    split; [exact Hi|]. now left.
Qed.

(** C3, as the code has it: a request that gets a 401 and whose refresh
    fails is rejected with that 401, and nothing in what it did is a call
    of [onAuthError], whether one is configured or not: the [catch] that
    calls it sees only a [refreshToken] that rejects, and a failed refresh
    resolves [false].  The tokens are cleared when a refresh token was
    stored (by [refreshToken]), and left as they are when none was. *)
Theorem refresh_failure_skips_onAuthError (c : Request) (w w1 w2 : World) :
  _retry c = false ->
  parses w ->
  let c1 := authorized (stored_access w) c in
  dispatchRequest c1 w = (Throw (AxiosError c1 (Some 401)), w1) ->
  refreshToken w1 = (Ok false, w2) ->
  request config c w = (Throw (AxiosError (with_retry_flag c1) (Some 401)), w2) /\
  (exists l, trace w2 = trace w ++ l /\ AuthError ∉ l) /\
  (truthy_str (stored_refresh w) = true -> storage w2 = None) /\
  (truthy_str (stored_refresh w) = false -> storage w2 = storage w).
Proof.
  intros Hc Hw c1 Hd Hr.
  pose proof (dispatchRequest_storage c1 w) as (Hs1 & Ht1 & _).
  rewrite Hd in Hs1, Ht1. cbn [snd] in Hs1, Ht1.
  assert (Hw1 : parses w1) by (unfold parses; now rewrite Hs1).
  assert (Hr1 : stored_refresh w1 = stored_refresh w)
    by (unfold stored_refresh; now rewrite Hs1).
  pose proof (instance_401 config c w w1 Hc Hw Hd) as Hi.
  rewrite <- request_instance, Hr in Hi.
  split; [exact Hi|].
  destruct (truthy_str (stored_refresh w)) eqn:Htok; rewrite <- Hr1 in Htok.
  - destruct (refreshToken_token w1 Hw1 Htok)
      as (b & w2' & Hr' & _ & Ht2 & _ & Hnone & _).
    rewrite Hr in Hr'. injection Hr' as <- <-.
    repeat split; try discriminate; [|auto].
    eexists. split; [rewrite Ht2, Ht1, <- app_assoc; reflexivity|].
    simpl. rewrite !elem_of_cons, elem_of_nil. intros [|[|[]]]; discriminate.
  - rewrite (refreshToken_no_token w1 Hw1 Htok) in Hr. injection Hr as <-.
    repeat split; try discriminate; [|auto].
    eexists. split; [exact Ht1|].
    rewrite elem_of_cons, elem_of_nil. intros [|[]]; discriminate.
Qed.

End Replay.

(** C9, for a stored item that parses: [refreshToken] resolves to a
    boolean.  Without a refresh token it resolves [false] and the world is
    as before: nothing sent, nothing stored.  With one, it makes one call
    to the refresh endpoint; when the call fails or its data cannot be
    read it clears the tokens and resolves [false], and otherwise stores
    the new access token beside the old refresh token and resolves
    [true]. *)
Theorem refreshToken_resolves (w : World) :
  parses w ->
  exists (b : bool) (w' : World),
    refreshToken w = (Ok b, w') /\
    (truthy_str (stored_refresh w) = false -> b = false /\ w' = w) /\
    (truthy_str (stored_refresh w) = true ->
     trace w' = trace w ++ [RefreshPost (stored_refresh w)] /\
     b = usable (net w (sent w)) /\
     (b = false -> storage w' = None) /\
     (b = true ->
      exists status a content,
        outcome (net w (sent w)) = Response status (DVal a content) /\
        storage w' = Some (JSON {| access := a; refresh := stored_refresh w |}))).
Proof.
  intros Hw. destruct (truthy_str (stored_refresh w)) eqn:Htok.
  - destruct (refreshToken_token w Hw Htok)
      as (b & w' & Hr & Hb & Ht & _ & Hnone & Hok).
    exists b, w'. split; [exact Hr|]. split; [discriminate|]. auto.
  - exists false, w. split; [now apply refreshToken_no_token|].
    split; [auto|discriminate].
Qed.

(** ** Validity of the access token *)

Section Validity.

Variable jwtDecode : string -> option JwtPayload.

(** [jwt-decode] rejects the empty string (it has no second part). *)
Hypothesis jwtDecode_empty : jwtDecode EmptyString = None.

Lemma truthy_str_Some (s : string) : truthy_str (Some s) = true <-> s <> EmptyString.
Proof.
  simpl. destruct (String.eqb_spec s EmptyString); simpl; split; congruence.
Qed.

Lemma isAccessTokenValid_token (w : World) (token : string) :
  stored_access w = Some token ->
  isAccessTokenValid jwtDecode w =
  (Ok match jwtDecode token with
      | Some decoded => not_expired decoded (now w)
      | None => false
      end, w).
Proof.
  unfold stored_access, isAccessTokenValid, bind, getTokens.
  destruct (storage w) as [[|tokens]|]; try discriminate.
  intros Ha. simpl. rewrite Ha.
  destruct (truthy_str (Some token)) eqn:Ht; simpl.
  - unfold try_catch. simpl. now destruct (jwtDecode token).
  - assert (token = EmptyString) as ->.
    { simpl in Ht. destruct (String.eqb_spec token EmptyString); [assumption|discriminate]. }
    now rewrite jwtDecode_empty.
Qed.

Lemma isAccessTokenValid_true (w w' : World) :
  isAccessTokenValid jwtDecode w = (Ok true, w') ->
  exists token, stored_access w = Some token.
Proof.
  unfold stored_access, isAccessTokenValid, bind, getTokens.
  destruct (storage w) as [[|tokens]|]; try discriminate.
  simpl. destruct (access tokens) as [token|]; [eauto|discriminate].
Qed.

(** C7: [isAccessTokenValid] returns [true] exactly when the stored access
    token decodes and its [exp] claim, in seconds, is not before the
    current time; with an [exp] in the past it returns [false], with one
    in the future [true], and for a token that does not decode it returns
    [false], not an exception. *)
Theorem isAccessTokenValid_iff (w : World) :
  (isAccessTokenValid jwtDecode w = (Ok true, w) <->
   exists token decoded e,
     stored_access w = Some token /\ jwtDecode token = Some decoded /\
     exp decoded = Some e /\ now w <= e * 1000) /\
  (forall token decoded e,
     stored_access w = Some token -> jwtDecode token = Some decoded ->
     exp decoded = Some e ->
     (e * 1000 < now w -> isAccessTokenValid jwtDecode w = (Ok false, w)) /\
     (now w < e * 1000 -> isAccessTokenValid jwtDecode w = (Ok true, w))) /\
  (forall token,
     stored_access w = Some token -> jwtDecode token = None ->
     isAccessTokenValid jwtDecode w = (Ok false, w)).
Proof.
  split; [split|split].
  - intros H. destruct (isAccessTokenValid_true _ _ H) as [token Ha].
    rewrite (isAccessTokenValid_token w token Ha) in H.
    destruct (jwtDecode token) as [decoded|] eqn:Hd; [|discriminate].
    unfold not_expired in H. destruct (exp decoded) as [e|] eqn:He; [|discriminate].
    injection H as H. apply Z.leb_le in H. eauto 10.
  - intros (token & decoded & e & Ha & Hd & He & Hle).
    rewrite (isAccessTokenValid_token w token Ha), Hd.
    unfold not_expired. rewrite He. apply Z.leb_le in Hle. now rewrite Hle.
  - intros token decoded e Ha Hd He.
    rewrite (isAccessTokenValid_token w token Ha), Hd.
    unfold not_expired. rewrite He. split; intros H.
    + apply Z.leb_gt in H. now rewrite H.
    + assert (H' : now w <= e * 1000) by lia. apply Z.leb_le in H'. now rewrite H'.
  - intros token Ha Hd.
    now rewrite (isAccessTokenValid_token w token Ha), Hd.
Qed.

End Validity.

(** ** Concurrent calls of [refreshToken] *)

(** Alone, a task does what [refreshToken] does. *)
Lemma run_alone (w : World) :
  run [0%nat; 0%nat] (w, [Pending]) =
  (snd (refreshToken w), [Returned (fst (refreshToken w))]).
Proof.
  unfold run, step, refresh_enter, refreshToken, bind; simpl.
  destruct (getTokens w) as [[tokens|e] w1]; simpl; [|reflexivity].
  destruct (negb (truthy_str (tokens ≫= refresh))); simpl; [reflexivity|].
  unfold refresh_resume, refresh_with, try_catch, bind, axios_post, call; simpl.
  destruct (settle RefreshFailed (net w1 (sent w1))) as [[|a c]|e]; reflexivity.
Qed.

Lemma entered_0 (w : World) : entered 0 w = w.
Proof.
  destruct w. unfold entered. simpl. now rewrite app_nil_r, Nat.add_0_r.
Qed.

Lemma refresh_enter_token (w : World) :
  parses w -> truthy_str (stored_refresh w) = true ->
  refresh_enter w = (Awaiting (stored_tokens w) (sent w),
                     snd (leave (RefreshPost (stored_refresh w)) w)).
Proof.
  unfold parses, stored_refresh, stored_tokens, refresh_enter, getTokens.
  destruct (storage w) as [[|tokens]|]; [congruence| |discriminate].
  intros _ H. simpl. now rewrite H.
Qed.

Lemma enter_in_turn (N k : nat) (w : World) :
  parses w -> truthy_str (stored_refresh w) = true ->
  (k <= N)%nat ->
  run (seq 0 k) (w, replicate N Pending) =
  (entered k w, (waiting w <$> seq 0 k) ++ replicate (N - k) Pending).
Proof.
  intros Hw Htok. induction k as [|k IH]; intros Hk.
  - simpl. now rewrite entered_0, Nat.sub_0_r.
  - rewrite seq_S. unfold run in *. rewrite foldl_app. simpl.
    rewrite IH by lia. unfold step.
    assert (Hlen : length (waiting w <$> seq 0 k) = k)
      by now rewrite length_fmap, length_seq.
    replace (N - k)%nat with (S (N - S k)) by lia.
    rewrite lookup_app_r by lia. rewrite Hlen, Nat.sub_diag. simpl.
    rewrite refresh_enter_token by assumption.
    rewrite insert_app_r_alt by lia. rewrite Hlen, Nat.sub_diag. simpl.
    f_equal.
    + unfold entered; simpl. f_equal; [lia|].
      rewrite <- app_assoc. f_equal.
      change (RefreshPost (stored_refresh w) :: ?l) with ([RefreshPost (stored_refresh w)] ++ l).
      now rewrite <- replicate_S_end.
    + rewrite fmap_app. simpl. rewrite <- app_assoc. simpl.
      unfold waiting at 3. unfold stored_tokens. simpl. reflexivity.
Qed.

(** What a resumed task returns: whether its own reply was usable. *)
Lemma refresh_resume_cases (tokens : option AuthTokens) (ticket : nat) (w : World) :
  exists w',
    refresh_resume tokens ticket w = (Ok (usable (net w ticket)), w') /\
    net w' = net w /\ trace w' = trace w /\ sent w' = sent w.
Proof.
  unfold refresh_resume, refresh_with, try_catch, bind, arrive, settle, usable.
  simpl.
  destruct (outcome (net w ticket)) as [|status [|a content]]; simpl;
    try (eexists; repeat split; reflexivity).
  all: destruct (is_2xx status); simpl; eexists; repeat split; reflexivity.
Qed.

Lemma step_all_entered (N : nat) (w : World) (s : World * list Task) (j : nat) :
  all_entered N w s -> all_entered N w (step j s).
Proof.
  intros (Hnet & Htrace & Hlen & Htasks). destruct s as [w' tasks].
  simpl in *. unfold step.
  destruct (tasks !! j) as [t|] eqn:Hj; [|now repeat split].
  assert (HjN : (j < N)%nat) by (apply lookup_lt_Some in Hj; lia).
  destruct (Htasks j HjN) as [Hw|Hr]; rewrite Hj in *.
  - injection Hw as ->. unfold waiting.
    destruct (refresh_resume_cases (stored_tokens w) (sent w + j) w')
      as (w'' & -> & Hnet' & Htrace' & _).
    repeat split; simpl; try congruence.
    + now rewrite length_insert.
    + intros i Hi. destruct (decide (i = j)) as [->|Hne].
      * right. rewrite list_lookup_insert_eq by lia. now rewrite Hnet.
      * rewrite list_lookup_insert_ne by congruence. now apply Htasks.
  - injection Hr as ->. now repeat split.
Qed.

Lemma step_returned (N : nat) (w : World) (s : World * list Task) (i j : nat) :
  all_entered N w s -> (i < N)%nat ->
  (i = j \/ snd s !! i = Some (Returned (Ok (usable (net w (sent w + i)%nat))))) ->
  snd (step j s) !! i = Some (Returned (Ok (usable (net w (sent w + i)%nat)))).
Proof.
  intros (Hnet & Htrace & Hlen & Htasks) Hi Hor. destruct s as [w' tasks].
  simpl in *. unfold step.
  destruct (tasks !! j) as [t|] eqn:Hj.
  2: { destruct Hor as [->|H]; [|exact H].
       apply lookup_ge_None in Hj. lia. }
  assert (HjN : (j < N)%nat) by (apply lookup_lt_Some in Hj; lia).
  destruct (Htasks j HjN) as [Hw|Hr]; rewrite Hj in *.
  - injection Hw as ->. unfold waiting.
    destruct (refresh_resume_cases (stored_tokens w) (sent w + j) w')
      as (w'' & -> & _). simpl.
    destruct (decide (i = j)) as [->|Hne].
    + rewrite list_lookup_insert_eq by lia. now rewrite Hnet.
    + rewrite list_lookup_insert_ne by congruence.
      destruct Hor as [->|H]; [congruence|exact H].
  - injection Hr as ->. simpl. destruct Hor as [->|H]; [exact Hj|exact H].
Qed.

Lemma run_all_entered (N : nat) (w : World) (schedule : list nat) (s : World * list Task) :
  all_entered N w s ->
  all_entered N w (run schedule s) /\
  forall i, (i < N)%nat ->
    (i ∈ schedule \/ snd s !! i = Some (Returned (Ok (usable (net w (sent w + i)%nat))))) ->
    snd (run schedule s) !! i = Some (Returned (Ok (usable (net w (sent w + i)%nat)))).
Proof.
  revert s. induction schedule as [|j schedule IH]; intros s Hs.
  - split; [exact Hs|]. intros i _ [Hin|H]; [|exact H].
    now apply elem_of_nil in Hin.
  - simpl. destruct (IH (step j s) (step_all_entered N w s j Hs)) as [Hinv Hret].
    split; [exact Hinv|]. intros i Hi Hor. apply Hret; [exact Hi|].
    rewrite elem_of_cons in Hor.
    destruct Hor as [[->|Hin]|H]; [right|now left|right].
    + apply (step_returned N w s j j Hs Hi). now left.
    + apply (step_returned N w s i j Hs Hi). now right.
Qed.

Lemma refresh_posts_app (t1 t2 : list Event) :
  refresh_posts (t1 ++ t2) = (refresh_posts t1 + refresh_posts t2)%nat.
Proof. unfold refresh_posts. now rewrite List.filter_app, length_app. Qed.

Lemma refresh_posts_replicate (k : nat) (r : option string) :
  refresh_posts (replicate k (RefreshPost r)) = k.
Proof. induction k as [|k IH]; [reflexivity|]. unfold refresh_posts in *. simpl. now rewrite IH. Qed.

(** C1, as the code has it: [N] tasks enter [refreshToken] while a
    refresh token is stored and no reply is in.  Each of them posts to the
    refresh endpoint: the trace gains [N] posts, and however the replies
    are then taken up, no further post is made and every task that has
    run again has returned the outcome of its own reply, the one with its
    ticket. *)
Theorem concurrent_refreshes_post_each (N : nat) (w : World) (schedule : list nat) :
  parses w ->
  truthy_str (stored_refresh w) = true ->
  let s := run (seq 0 N ++ schedule) (w, replicate N Pending) in
  refresh_posts (trace (fst s)) = (refresh_posts (trace w) + N)%nat /\
  forall i, (i < N)%nat -> i ∈ schedule ->
    snd s !! i = Some (Returned (Ok (usable (net w (sent w + i)%nat)))).
Proof.
  intros Hw Htok s. unfold s, run. rewrite foldl_app.
  fold (run (seq 0 N) (w, replicate N Pending)).
  rewrite (enter_in_turn N N w Hw Htok) by lia.
  rewrite Nat.sub_diag. simpl. rewrite app_nil_r.
  fold (run schedule (entered N w, waiting w <$> seq 0 N)).
  assert (Hs : all_entered N w (entered N w, waiting w <$> seq 0 N)).
  { repeat split; simpl.
    - now rewrite length_fmap, length_seq.
    - intros i Hi. left. rewrite list_lookup_fmap.
      rewrite lookup_seq_lt by lia. reflexivity. }
  destruct (run_all_entered N w schedule _ Hs) as [(_ & Htrace & _) Hret].
  split.
  - rewrite Htrace. simpl. now rewrite refresh_posts_app, refresh_posts_replicate.
  - intros i Hi Hin. apply Hret; [exact Hi|now left].
Qed.

(** ** Worked examples *)

(** C1 at two tasks: both post, and with the first reply lost and the
    second usable, the two callers are told different things. *)
Lemma two_concurrent_refreshes_two_posts :
  let s := run [0; 1; 0; 1]%nat
             (world_of signed_in (scripted [NoResponse; new_access]),
              [Pending; Pending]) in
  refresh_posts (trace (fst s)) = 2%nat /\
  snd s = [Returned (Ok false); Returned (Ok true)].
Proof. vm_compute. split; reflexivity. Qed.

(** C2 at [get] with the default retries: one call of [get], a first
    dispatch answered 401, and four refreshes, each followed by a replay
    that is answered 401 as well. *)
Lemma get_with_retries_refreshes_again :
  let out := get default_client "/x" no_options
               (world_of signed_in expired_session) in
  refresh_posts (trace (snd out)) = 4%nat /\
  dispatches (trace (snd out)) = 8%nat /\
  timers (trace (snd out)) = [1000; 2000; 4000] /\
  rejected_with_401 (fst out) = true.
Proof. vm_compute. repeat split. Qed.

(** C9 at a stored item that is not JSON: [getTokens] throws before the
    [try] of [refreshToken], and the promise rejects. *)
Lemma refreshToken_rejects_on_bad_item :
  let w := world_of (Some BadJSON) (scripted []) in
  refreshToken w = (Throw SyntaxError, w).
Proof. reflexivity. Qed.

(** C3 at a lost refresh, with a callback configured. *)
Lemma refresh_failure_skips_onAuthError_witness :
  let c := get_config "/x" no_options in
  let w := world_of signed_in (scripted [unauthorized; NoResponse]) in
  let c1 := authorized (stored_access w) c in
  let w1 := snd (dispatchRequest c1 w) in
  let w2 := snd (refreshToken w1) in
  read (onAuthError client_with_callback) = Some tt /\
  request client_with_callback c w =
    (Throw (AxiosError (with_retry_flag c1) (Some 401)), w2) /\
  trace w2 = [Dispatch c1; RefreshPost (Some "r")] /\
  storage w2 = None.
Proof.
  intros c w c1 w1 w2.
  destruct (refresh_failure_skips_onAuthError client_with_callback c w w1 w2)
    as (Hreq & _ & Hclear & _); try reflexivity; [discriminate|].
  split; [reflexivity|]. split; [exact Hreq|]. split; [reflexivity|].
  now apply Hclear.
Defined.

Lemma dispatchRequest_sets_no_timer (c : Request) : sets_no_timer (dispatchRequest c).
Proof.
  intros w. destruct (dispatchRequest_storage c w) as (_ & -> & _).
  unfold timers. rewrite omap_app. simpl. now rewrite app_nil_r.
Qed.

Lemma dispatches_app (t1 t2 : list Event) :
  dispatches (t1 ++ t2) = (dispatches t1 + dispatches t2)%nat.
Proof. unfold dispatches. now rewrite List.filter_app, length_app. Qed.

Lemma fails_in_a_row_dispatches (c : Request) n d w w' :
  fails_in_a_row (dispatchRequest c) n d w w' ->
  dispatches (trace w') = (dispatches (trace w) + n)%nat.
Proof.
  intros H. induction H as [d w|n d w error w1 w' Hfail _ IH]; [lia|].
  rewrite IH. destruct (dispatchRequest_storage c w) as (_ & Ht & _).
  rewrite Hfail in Ht. cbn [snd] in Ht.
  cbn [setTimeout elapse emit trace]. rewrite Ht, !dispatches_app.
  cbn. lia.
Qed.

(** With the transport itself as the operation, the attempts can be
    counted in the trace: [K] failures and one more attempt. *)
Lemma withRetry_attempts (c : Request) (K d : Z) (w w' : World) :
  0 <= K ->
  fails_in_a_row (dispatchRequest c) (Z.to_nat K) d w w' ->
  dispatches (trace (snd (withRetry (dispatchRequest c) K d w))) =
  (dispatches (trace w) + Z.to_nat K + 1)%nat.
Proof.
  intros HK H.
  rewrite (withRetry_last_attempt (dispatchRequest c) K d w w' HK H).
  destruct (dispatchRequest_storage c w') as (_ & -> & _).
  rewrite dispatches_app, (fails_in_a_row_dispatches c _ _ _ _ H). cbn. lia.
Qed.

Lemma withRetry_backoff_witness :
  let op := dispatchRequest (get_config "/x" no_options) in
  let w := world_of signed_in (scripted [server_error; server_error; items]) in
  let w' := after_wait 2000 (snd (op (after_wait 1000 (snd (op w))))) in
  fails_and_waits op 2 1000 w w' /\
  now w' = 3020 /\
  withRetry op 2 1000 w = op w' /\
  fst (op w') = Ok (DVal None "items") /\
  timers (trace (snd (op w'))) = [1000; 2000].
Proof.
  intros op w w'.
  assert (H : fails_and_waits op (Z.to_nat 2) 1000 w w').
  { eapply waits_again; [reflexivity|unfold timer_takes, TIMEOUT_MAX; lia|].
    eapply waits_again; [reflexivity|unfold timer_takes, TIMEOUT_MAX; lia|].
    apply waits_none. }
  split; [exact H|]. split; [reflexivity|].
  destruct (withRetry_backoff op 2 1000 w w') as [Hret Htimers];
    [lia|exact H|].
  split; [exact Hret|]. split; [reflexivity|].
  apply Htimers, dispatchRequest_sets_no_timer.
Defined.

(** C4 at a delay the timer does not take: with [retryDelay] [2^31] the
    retry is made 1 ms after the failure, not [2^31] ms after it; the two
    replies take 10 ms each. *)
Lemma delay_past_the_timer_is_not_waited :
  let op := dispatchRequest (get_config "/x" no_options) in
  let w := world_of signed_in (scripted [server_error; items]) in
  let out := withRetry op 1 2147483648 w in
  fst out = Ok (DVal None "items") /\
  timers (trace (snd out)) = [2147483648] /\
  now w = 0 /\
  now (snd out) = 21.
Proof. vm_compute. repeat split; reflexivity. Qed.

Lemma request_401_refresh_then_replay_witness :
  let c := get_config "/x" no_options in
  let w := world_of signed_in (scripted [unauthorized; new_access; unauthorized]) in
  let c1 := authorized (stored_access w) c in
  let w1 := snd (dispatchRequest c1 w) in
  let w2 := snd (refreshToken w1) in
  let c2 := replayed (Some "a2") c1 in
  parses w /\
  request default_client c w = (Throw (AxiosError c2 (Some 401)), snd (dispatchRequest c2 w2)) /\
  trace (snd (request default_client c w)) =
    [Dispatch c1; RefreshPost (Some "r"); Dispatch c2].
Proof.
  intros c w c1 w1 w2 c2.
  assert (Hw : parses w) by discriminate.
  split; [exact Hw|].
  destruct (request_401_refresh_then_replay default_client c w w1 eq_refl Hw eq_refl)
    as (refreshed & w2' & Hr & H).
  change (refreshToken w1) with (Ok true, w2) in Hr.
  injection Hr as <- <-.
  destruct H as (Hreq & _ & _ & _ & Htrace).
  split; [rewrite Hreq; reflexivity|exact Htrace].
Defined.

Lemma refreshToken_resolves_witness :
  let w := world_of signed_in (scripted [server_error]) in
  parses w /\
  exists w', refreshToken w = (Ok false, w') /\ storage w' = None /\
             trace w' = [RefreshPost (Some "r")].
Proof.
  intros w. assert (Hw : parses w) by discriminate.
  split; [exact Hw|].
  destruct (refreshToken_resolves w Hw) as (b & w' & Hr & _ & Hyes).
  destruct (Hyes eq_refl) as (Htrace & Hb & Hnone & _).
  change (usable (net w (sent w))) with false in Hb. subst b.
  exists w'. split; [exact Hr|]. split; [now apply Hnone|exact Htrace].
Defined.

Lemma concurrent_refreshes_post_each_witness :
  let w := world_of signed_in (scripted [new_access; NoResponse; new_access]) in
  let s := run (seq 0 3 ++ [2; 0; 1]%nat) (w, replicate 3 Pending) in
  parses w /\
  refresh_posts (trace (fst s)) = 3%nat /\
  snd s = [Returned (Ok true); Returned (Ok false); Returned (Ok true)].
Proof.
  intros w s. assert (Hw : parses w) by discriminate.
  split; [exact Hw|].
  destruct (concurrent_refreshes_post_each 3 w [2; 0; 1]%nat Hw eq_refl)
    as [Hposts _].
  split; [exact Hposts|reflexivity].
Defined.

Lemma isAccessTokenValid_iff_witness :
  toy_jwtDecode EmptyString = None /\
  isAccessTokenValid toy_jwtDecode (holding "future") = (Ok true, holding "future") /\
  isAccessTokenValid toy_jwtDecode (holding "past") = (Ok false, holding "past") /\
  isAccessTokenValid toy_jwtDecode (holding "junk") = (Ok false, holding "junk").
Proof.
  split; [reflexivity|].
  pose proof (isAccessTokenValid_iff toy_jwtDecode eq_refl (holding "future"))
    as (_ & Hfuture & _).
  pose proof (isAccessTokenValid_iff toy_jwtDecode eq_refl (holding "past"))
    as (_ & Hpast & _).
  pose proof (isAccessTokenValid_iff toy_jwtDecode eq_refl (holding "junk"))
    as (_ & _ & Hjunk).
  split; [|split].
  - apply (Hfuture "future" {| exp := Some 3000 |} 3000); try reflexivity.
  - apply (Hpast "past" {| exp := Some 1000 |} 1000); try reflexivity.
  - apply (Hjunk "junk"); reflexivity.
Defined.

(** ** The cache key *)

Example cacheKey_ex :
  cacheKey "/items/"
    {| opt_cache := None; opt_cacheDuration := None; opt_retry := None;
       opt_retryCount := None; opt_retryDelay := None;
       opt_params := Some [("page", PNum 1); ("q", PStr "a b")] |}
  = "/items/{" +:+ quote "page" +:+ ":1," +:+ quote "q" +:+ ":" +:+ quote "a b" +:+ "}".
Proof. reflexivity. Qed.


(** *** Strings *)

Lemma sapp_cons (c : ascii) (s x : string) : String c s +:+ x = String c (s +:+ x).
Proof. reflexivity. Qed.

Lemma sapp_assoc (a b c : string) : (a +:+ b) +:+ c = a +:+ (b +:+ c).
Proof.
  induction a as [|h a IH]; [reflexivity|].
  now rewrite !sapp_cons, IH.
Qed.

Lemma sapp_nil_r (a : string) : a +:+ EmptyString = a.
Proof. induction a as [|h a IH]; [reflexivity|]. now rewrite sapp_cons, IH. Qed.

(** Two ways of cutting one string: one of the two prefixes is a prefix of
    the other. *)
Lemma sapp_eq_split (x a y b : string) :
  x +:+ a = y +:+ b ->
  exists t, (y = x +:+ t /\ a = t +:+ b) \/ (x = y +:+ t /\ b = t +:+ a).
Proof.
  revert y. induction x as [|h x IH]; intros y H.
  - exists y. left. split; [reflexivity|exact H].
  - destruct y as [|k y].
    + exists (String h x). right. split; [reflexivity|]. symmetry. exact H.
    + rewrite !sapp_cons in H. injection H as -> H.
      destruct (IH y H) as [t [[-> ->]|[-> ->]]]; exists t; [left|right];
        now rewrite ?sapp_cons.
Qed.

(** *** Quoted strings can be read back *)

Lemma unescape_escape_char (c : ascii) (x : string) :
  unescape_char (escape_char c +:+ x) = Some (c, x).
Proof. destruct c as [[] [] [] [] [] [] [] []]; reflexivity. Qed.

Lemma escape_cons (c : ascii) (s : string) :
  escape (String c s) = escape_char c +:+ escape s.
Proof. reflexivity. Qed.

Lemma escape_inv (s1 s2 r1 r2 : string) :
  escape s1 +:+ String dquote r1 = escape s2 +:+ String dquote r2 ->
  s1 = s2 /\ r1 = r2.
Proof.
  revert s2. induction s1 as [|c1 s1 IH]; intros [|c2 s2] H.
  - now injection H.
  - apply (f_equal unescape_char) in H.
    rewrite escape_cons, sapp_assoc, unescape_escape_char in H. discriminate.
  - apply (f_equal unescape_char) in H.
    rewrite escape_cons, sapp_assoc, unescape_escape_char in H. discriminate.
  - apply (f_equal unescape_char) in H.
    rewrite !escape_cons, !sapp_assoc, !unescape_escape_char in H.
    injection H as -> H. destruct (IH s2 H) as [-> ->]. now split.
Qed.

Lemma quote_app (s r : string) :
  quote s +:+ r = String dquote (escape s +:+ String dquote r).
Proof. unfold quote. now rewrite sapp_cons, sapp_assoc. Qed.

Lemma quote_inv (s1 s2 r1 r2 : string) :
  quote s1 +:+ r1 = quote s2 +:+ r2 -> s1 = s2 /\ r1 = r2.
Proof. rewrite !quote_app. intros [= H]. now apply escape_inv. Qed.

(** *** Numbers are runs of digits *)

Lemma all_chars_app (P : ascii -> bool) (a b : string) :
  all_chars P (a +:+ b) = all_chars P a && all_chars P b.
Proof.
  induction a as [|c a IH]; [reflexivity|].
  rewrite sapp_cons. simpl. now rewrite IH, andb_assoc.
Qed.

Lemma run_of_chars_inv (P : ascii -> bool) (a b t1 t2 : string) :
  all_chars P a = true -> all_chars P b = true ->
  stops P t1 = true -> stops P t2 = true ->
  a +:+ t1 = b +:+ t2 -> a = b /\ t1 = t2.
Proof.
  revert b. induction a as [|c a IH]; intros [|k b] Ha Hb H1 H2 H.
  - now split.
  - change (t1 = String k (b +:+ t2)) in H. subst t1.
    simpl in Hb, H1. apply andb_true_iff in Hb as [Hk _].
    rewrite Hk in H1. discriminate.
  - change (String c (a +:+ t1) = t2) in H. subst t2.
    simpl in Ha, H2. apply andb_true_iff in Ha as [Hc _].
    rewrite Hc in H2. discriminate.
  - rewrite !sapp_cons in H. injection H as -> H.
    simpl in Ha, Hb. apply andb_true_iff in Ha as [_ Ha].
    apply andb_true_iff in Hb as [_ Hb].
    destruct (IH b Ha Hb H1 H2 H) as [-> ->]. now split.
Qed.

Lemma pretty_N_char_numeric (x : N) : numeric (pretty_N_char x) = true.
Proof.
  unfold pretty_N_char.
  destruct x as [|[[[[|[]|]|[[]|[]|]|]|[[[]|[]|]|[[]|[]|]|]|]|[[[|[]|]|[[]|[]|]|]|[[[]|[]|]|[[]|[]|]|]|]|]];
    reflexivity.
Qed.

Lemma pretty_N_go_numeric (x : N) (s : string) :
  exists p, pretty_N_go x s = p +:+ s /\ all_chars numeric p = true /\
            ((0 < x)%N -> p <> EmptyString).
Proof.
  revert s. induction (N.lt_wf_0 x) as [x _ IH]; intros s.
  assert (x = 0 \/ 0 < x)%N as [->|Hx] by lia.
  - exists EmptyString. rewrite pretty_N_go_0. repeat split. lia.
  - rewrite pretty_N_go_step by exact Hx.
    destruct (IH (x `div` 10)%N (N.div_lt x 10 Hx eq_refl)
                (String (pretty_N_char (x `mod` 10)) s)) as (p & -> & Hp & _).
    exists (p +:+ String (pretty_N_char (x `mod` 10)) EmptyString).
    rewrite sapp_assoc. split; [reflexivity|]. split.
    + rewrite all_chars_app, Hp. simpl. now rewrite pretty_N_char_numeric.
    + intros _. destruct p; discriminate.
Qed.

Lemma pretty_Z_numeric (n : Z) :
  all_chars numeric (pretty n) = true /\ pretty n <> EmptyString.
Proof.
  assert (HN : forall x : N, all_chars numeric (pretty x) = true /\
                             pretty x <> EmptyString).
  { intros x. unfold pretty, pretty_N. destruct (decide (x = 0%N)) as [->|Hx].
    - split; [reflexivity|discriminate].
    - destruct (pretty_N_go_numeric x EmptyString) as (p & -> & Hp & Hne).
      rewrite sapp_nil_r. split; [exact Hp|]. apply Hne. lia. }
  destruct n as [|p|p]; unfold pretty, pretty_Z.
  - split; [reflexivity|discriminate].
  - apply (HN (Npos p)).
  - destruct (HN (Npos p)) as [H _]. split; [|discriminate].
    rewrite sapp_cons. simpl. exact H.
Qed.

(** *** The serialization can be read back *)

Lemma closes_value_stops (t : string) : closes_value t -> stops numeric t = true.
Proof. intros [r [->| ->]]; reflexivity. Qed.

Lemma pretty_Z_head (n : Z) :
  exists h r, pretty n = String h r /\ numeric h = true.
Proof.
  destruct (pretty_Z_numeric n) as [Hall Hne].
  destruct (pretty n) as [|h r]; [congruence|].
  simpl in Hall. apply andb_true_iff in Hall as [Hh _]. eauto.
Qed.

Lemma stringify_value_inv (v1 v2 : ParamValue) (t1 t2 : string) :
  closes_value t1 -> closes_value t2 ->
  stringify_value v1 +:+ t1 = stringify_value v2 +:+ t2 ->
  v1 = v2 /\ t1 = t2.
Proof.
  intros H1 H2 H.
  assert (Hnum : forall (n : Z) (x y : string) (c : ascii),
            numeric c = false -> pretty n +:+ x <> String c y).
  { intros n x y c Hc Heq. destruct (pretty_Z_head n) as (h & r & Hp & Hh).
    rewrite Hp, sapp_cons in Heq. injection Heq as -> _. congruence. }
  destruct v1 as [|[]|n1|s1], v2 as [|[]|n2|s2]; simpl in H;
    try (rewrite ?quote_app in H; discriminate H);
    try (injection H as ->; now split);
    try (exfalso; eapply Hnum; [|exact H]; reflexivity);
    try (exfalso; symmetry in H; eapply Hnum; [|exact H]; reflexivity).
  - apply (inj (String.app _)) in H. now split.
  - apply (inj (String.app _)) in H. now split.
  - apply (inj (String.app _)) in H. now split.
  - destruct (run_of_chars_inv numeric (pretty n1) (pretty n2) t1 t2) as [Hp ->];
      try apply pretty_Z_numeric; try now apply closes_value_stops.
    + exact H.
    + apply (inj pretty) in Hp. now subst.
  - apply quote_inv in H as [-> ->]. now split.
Qed.

Lemma stringify_property_app (k : string) (v : ParamValue) (r : string) :
  stringify_property (k, v) +:+ r = quote k +:+ (":" +:+ (stringify_value v +:+ r)).
Proof. unfold stringify_property. simpl. now rewrite !sapp_assoc. Qed.

Lemma stringify_properties_more (kv kv' : string * ParamValue) (p : Params) :
  stringify_properties (kv :: kv' :: p) =
  stringify_property kv +:+ ("," +:+ stringify_properties (kv' :: p)).
Proof. reflexivity. Qed.

Lemma closes_value_brace (x : string) : closes_value ("}" +:+ x).
Proof. exists x. now right. Qed.

Lemma closes_value_comma (x : string) : closes_value ("," +:+ x).
Proof. exists x. now left. Qed.

(** The properties of an object, closed by its brace, and what follows. *)
Lemma stringify_properties_inv (p1 p2 : Params) (x1 x2 : string) :
  stringify_properties p1 +:+ ("}" +:+ x1) =
  stringify_properties p2 +:+ ("}" +:+ x2) ->
  p1 = p2 /\ x1 = x2.
Proof.
  revert p2. induction p1 as [|[k1 v1] p1 IH]; intros [|[k2 v2] p2] H.
  - change (String "}" x1 = String "}" x2) in H. injection H as H. now subst.
  - destruct p2; [change (stringify_properties [(k2, v2)]) with (stringify_property (k2, v2)) in H
                 |rewrite stringify_properties_more, sapp_assoc in H];
      rewrite stringify_property_app, quote_app in H; discriminate H.
  - destruct p1; [change (stringify_properties [(k1, v1)]) with (stringify_property (k1, v1)) in H
                 |rewrite stringify_properties_more, sapp_assoc in H];
      rewrite stringify_property_app, quote_app in H; discriminate H.
  - destruct p1 as [|kv1 p1], p2 as [|kv2 p2].
    all: repeat match type of H with
         | context [stringify_properties [?kv]] =>
             change (stringify_properties [kv]) with (stringify_property kv) in H
         | context [stringify_properties (?kv :: ?kv' :: ?p)] =>
             rewrite (stringify_properties_more kv kv' p) in H
         end.
    all: rewrite ?sapp_assoc, !stringify_property_app in H.
    all: apply quote_inv in H as [-> H].
    all: apply (inj (String.app _)) in H.
    all: apply stringify_value_inv in H as [-> H];
      auto using closes_value_brace, closes_value_comma.
    + apply (inj (String.app _)) in H. now subst.
    + discriminate H.
    + discriminate H.
    + apply (inj (String.app _)) in H.
      destruct (IH (kv2 :: p2) H) as [-> ->]. now split.
Qed.

Lemma JSON_stringify_inv (p1 p2 : Params) (x1 x2 : string) :
  JSON_stringify p1 +:+ x1 = JSON_stringify p2 +:+ x2 -> p1 = p2 /\ x1 = x2.
Proof.
  unfold JSON_stringify. rewrite !sapp_assoc. intros H.
  apply (inj (String.app _)) in H.
  now apply stringify_properties_inv.
Qed.

(** *** No serialization ends in another one *)

Lemma scan_app (q : Scan) (a b : string) : scan q (a +:+ b) = scan (scan q a) b.
Proof.
  revert q. induction a as [|c a IH]; intros q; [reflexivity|].
  rewrite sapp_cons. simpl. apply IH.
Qed.

Lemma apart_step (q1 q2 : Scan) (k : CharClass) :
  apart q1 q2 = true -> apart (scan_class q1 k) (scan_class q2 k) = true.
Proof. destruct q1, q2, k; simpl; intros H; try reflexivity; discriminate H. Qed.

Lemma apart_scan (q1 q2 : Scan) (s : string) :
  apart q1 q2 = true -> apart (scan q1 s) (scan q2 s) = true.
Proof.
  revert q1 q2. induction s as [|c s IH]; intros q1 q2 H; [exact H|].
  simpl. apply IH. now apply apart_step.
Qed.

Lemma scan_not_back (q : Scan) (s : string) : q <> AtStart -> scan q s <> AtStart.
Proof.
  revert q. induction s as [|k s IH]; intros q Hq; [exact Hq|].
  simpl. apply IH. destruct q, (classify k); discriminate.
Qed.

Lemma no_serialization_inside (t j : string) :
  t <> EmptyString ->
  scan AtStart (t +:+ j) = AtEnd -> scan AtStart j = AtEnd -> False.
Proof.
  intros Ht H1 H2. rewrite scan_app in H1.
  assert (Hq : scan AtStart t <> AtStart).
  { destruct t as [|c t]; [congruence|]. simpl. apply scan_not_back.
    destruct (classify c); discriminate. }
  assert (Ha : apart (scan AtStart t) AtStart = true)
    by (destruct (scan AtStart t); try reflexivity; congruence).
  apply (apart_scan _ _ j) in Ha. rewrite H1, H2 in Ha. discriminate.
Qed.

(** What [JSON_stringify] writes is read to the end. *)
Lemma scan_escape_char (c : ascii) :
  scan InKey (escape_char c) = InKey /\ scan InString (escape_char c) = InString.
Proof. destruct c as [[] [] [] [] [] [] [] []]; split; reflexivity. Qed.

Lemma scan_escape (s : string) :
  scan InKey (escape s) = InKey /\ scan InString (escape s) = InString.
Proof.
  induction s as [|c s [IH1 IH2]]; [split; reflexivity|].
  rewrite escape_cons, !scan_app.
  destruct (scan_escape_char c) as [-> ->]. now split.
Qed.

Lemma scan_quote (s : string) :
  scan AtOpen (quote s) = AtColon /\ scan AfterComma (quote s) = AtColon /\
  scan AtValue (quote s) = AfterValue.
Proof.
  unfold quote. simpl. rewrite !scan_app.
  destruct (scan_escape s) as [-> ->]. now repeat split.
Qed.

Lemma literal_class (c : ascii) : literal c = true -> classify c = CLiteral.
Proof. destruct c as [[] [] [] [] [] [] [] []]; intros H; try reflexivity; discriminate H. Qed.

Lemma numeric_literal (c : ascii) : numeric c = true -> literal c = true.
Proof. unfold literal. now intros ->. Qed.

Lemma scan_literal (s : string) :
  all_chars numeric s = true ->
  scan InLiteral s = InLiteral /\ (s <> EmptyString -> scan AtValue s = InLiteral).
Proof.
  intros H.
  assert (H1 : scan InLiteral s = InLiteral).
  { induction s as [|c s IH]; [reflexivity|]. simpl in *.
    apply andb_true_iff in H as [Hc H].
    rewrite (literal_class c (numeric_literal c Hc)). simpl. now apply IH. }
  split; [exact H1|]. intros Hne. destruct s as [|c s]; [congruence|].
  simpl in *. apply andb_true_iff in H as [Hc H].
  rewrite (literal_class c (numeric_literal c Hc)) in *. exact H1.
Qed.

Lemma scan_value (v : ParamValue) : value_read (scan AtValue (stringify_value v)).
Proof.
  destruct v as [|[]|n|s]; try (left; reflexivity).
  - left. simpl. destruct (pretty_Z_numeric n) as [Hall Hne].
    now apply scan_literal.
  - right. apply scan_quote.
Qed.

Lemma scan_property (kv : string * ParamValue) :
  value_read (scan AtOpen (stringify_property kv)) /\
  value_read (scan AfterComma (stringify_property kv)).
Proof.
  unfold stringify_property. rewrite !scan_app.
  destruct (scan_quote (fst kv)) as (-> & -> & _). simpl.
  split; apply scan_value.
Qed.

Lemma scan_properties (p : Params) :
  p <> [] ->
  value_read (scan AtOpen (stringify_properties p)) /\
  value_read (scan AfterComma (stringify_properties p)).
Proof.
  induction p as [|kv p IH]; [congruence|]. intros _.
  destruct p as [|kv' p]; [apply scan_property|].
  rewrite stringify_properties_more, !scan_app.
  destruct (IH ltac:(discriminate)) as [_ IH2].
  destruct (scan_property kv) as [[-> | ->] [-> | ->]]; simpl; now split.
Qed.

Lemma scan_JSON_stringify (p : Params) : scan AtStart (JSON_stringify p) = AtEnd.
Proof.
  unfold JSON_stringify. rewrite sapp_cons.
  change (scan AtOpen (EmptyString +:+ stringify_properties p +:+ "}") = AtEnd).
  change (EmptyString +:+ ?s) with s. rewrite scan_app.
  destruct p as [|kv p]; [reflexivity|].
  destruct (scan_properties (kv :: p) ltac:(discriminate)) as [[-> | ->] _];
    reflexivity.
Qed.

(** *** The order of the own properties *)

Lemma array_index_Some (key : string) (i : N) :
  array_index key = Some i -> key = pretty i.
Proof.
  unfold array_index. destruct key as [|c r]; [discriminate|].
  destruct (read_decimal 0 (String c r)) as [n|]; [|discriminate].
  destruct (String.eqb (pretty n) (String c r)) eqn:E; [|discriminate].
  destruct (n <? 4294967295)%N; [|discriminate].
  intros [= <-]. apply String.eqb_eq in E. now symmetry.
Qed.

Lemma array_index_inj (k1 k2 : string) (i : N) :
  array_index k1 = Some i -> array_index k2 = Some i -> k1 = k2.
Proof.
  intros H1 H2. apply array_index_Some in H1, H2. congruence.
Qed.

Lemma precedes_before (key k : string) (value v : ParamValue) :
  precedes key k = true -> enumerated_before (key, value) (k, v).
Proof.
  unfold precedes, enumerated_before. simpl.
  destruct (array_index key), (array_index k); try easy.
  now intros H%N.ltb_lt.
Qed.

(** A key that is not placed before [k], and is not [k], is enumerated
    after it. *)
Lemma not_precedes_before (key k : string) (value v : ParamValue) :
  k <> key -> precedes key k = false -> enumerated_before (k, v) (key, value).
Proof.
  unfold precedes, enumerated_before. simpl. intros Hne.
  destruct (array_index key) as [i|] eqn:Hi, (array_index k) as [j|] eqn:Hj;
    try easy.
  intros H%N.ltb_ge.
  destruct (decide (i = j)) as [->|Hij]; [|lia].
  now destruct Hne; apply (array_index_inj _ _ j).
Qed.

Lemma enumerated_before_trans (key : string) (value : ParamValue)
    (a b : string * ParamValue) :
  precedes key (fst a) = true ->
  enumerated_before a b -> enumerated_before (key, value) b.
Proof.
  unfold precedes, enumerated_before. simpl.
  destruct (array_index key) as [i|]; [|discriminate].
  destruct (array_index (fst a)) as [j|], (array_index (fst b)) as [k|];
    try easy.
  intros H%N.ltb_lt. lia.
Qed.

Lemma enumerated_before_key (k : string) (v v' : ParamValue)
    (b : string * ParamValue) :
  enumerated_before (k, v) b -> enumerated_before (k, v') b.
Proof. easy. Qed.

Lemma define_property_elem (key : string) (value : ParamValue) (obj : Params)
    (x : string * ParamValue) :
  x ∈ define_property key value obj ->
  x = (key, value) \/ x ∈ obj.
Proof.
  induction obj as [|[k v] rest IH]; simpl.
  - destruct (String.eqb key "__proto__"); [now right|].
    rewrite list_elem_of_singleton. now left.
  - destruct (String.eqb key "__proto__"); [now right|].
    destruct (String.eqb_spec k key) as [->|Hk].
    + rewrite !elem_of_cons. intros [->|H]; auto.
    + destruct (precedes key k).
      * rewrite elem_of_cons. intros [->|H]; auto.
      * rewrite !elem_of_cons. intros [->|H]; [auto|].
        destruct (IH H); auto.
Qed.

Lemma define_property_sorted (key : string) (value : ParamValue) (obj : Params) :
  StronglySorted enumerated_before obj ->
  StronglySorted enumerated_before (define_property key value obj).
Proof.
  induction obj as [|[k v] rest IH]; simpl; intros Hs.
  - destruct (String.eqb key "__proto__"); repeat constructor.
  - destruct (String.eqb key "__proto__"); [exact Hs|].
    apply StronglySorted_inv in Hs as [Hrest Hall].
    destruct (String.eqb_spec k key) as [->|Hk].
    + constructor; [exact Hrest|].
      eapply Forall_impl; [exact Hall|]. intros b. apply enumerated_before_key.
    + destruct (precedes key k) eqn:Hp.
      * constructor; [now constructor|]. constructor.
        -- now apply precedes_before.
        -- eapply Forall_impl; [exact Hall|]. intros b.
           now apply (enumerated_before_trans key value (k, v)).
      * constructor; [now apply IH|].
        apply Forall_forall. intros x Hx.
        apply define_property_elem in Hx as [->|Hx].
        -- now apply not_precedes_before.
        -- rewrite Forall_forall in Hall. now apply Hall.
Qed.

(** A key the object does not have is added: the properties are those
    there were and the new one, and among the keys that are not array
    indices the new one is the last. *)
Lemma define_property_fresh (key : string) (value : ParamValue) (obj : Params) :
  key ∉ fst <$> obj ->
  key <> "__proto__" ->
  define_property key value obj ≡ₚ obj ++ [(key, value)] /\
  named_properties (define_property key value obj) =
  named_properties (obj ++ [(key, value)]).
Proof.
  intros Hfresh Hproto. apply String.eqb_neq in Hproto.
  induction obj as [|[k v] rest IH]; simpl.
  - now rewrite Hproto.
  - rewrite Hproto. rewrite fmap_cons, not_elem_of_cons in Hfresh.
    destruct Hfresh as [Hk Hrest]. simpl in Hk.
    destruct (String.eqb_spec k key) as [->|_]; [congruence|].
    destruct (precedes key k) eqn:Hp.
    + split.
      * change ((k, v) :: rest ++ [(key, value)])
          with (((k, v) :: rest) ++ [(key, value)]).
        now rewrite Permutation_app_comm.
      * assert (Hi : array_index key <> None)
          by (unfold precedes in Hp; now destruct (array_index key)).
        unfold named_properties.
        change ((k, v) :: rest ++ [(key, value)])
          with (((k, v) :: rest) ++ [(key, value)]).
        rewrite filter_app.
        rewrite (filter_cons_False _ (key, value) ((k, v) :: rest))
          by (simpl; congruence).
        rewrite (filter_cons_False _ (key, value) []) by (simpl; congruence).
        rewrite filter_nil. now rewrite app_nil_r.
    + destruct (IH Hrest) as [Hperm Hnamed]. split.
      * now rewrite Hperm.
      * unfold named_properties in *.
        rewrite !(filter_cons _ (k, v)), Hnamed.
        now destruct (decide _).
Qed.

Lemma own_properties_from (obj : Params) (literal : list (string * ParamValue)) :
  NoDup (fst <$> obj ++ literal) ->
  "__proto__" ∉ fst <$> literal ->
  StronglySorted enumerated_before obj ->
  let r := foldl (fun obj kv => define_property (fst kv) (snd kv) obj) obj literal in
  r ≡ₚ obj ++ literal /\
  named_properties r = named_properties (obj ++ literal) /\
  StronglySorted enumerated_before r.
Proof.
  revert obj. induction literal as [|[key value] literal IH]; intros obj Hnd Hp Hs.
  - simpl. now rewrite app_nil_r.
  - simpl. rewrite fmap_cons, not_elem_of_cons in Hp. destruct Hp as [Hkey Hp].
    assert (Hfresh : key ∉ fst <$> obj).
    { rewrite fmap_app, fmap_cons in Hnd. apply NoDup_app in Hnd as (_ & Hd & _).
      intros Hin. apply (Hd key Hin). simpl. apply list_elem_of_here. }
    destruct (define_property_fresh key value obj Hfresh ltac:(auto))
      as [Hperm Hnamed].
    destruct (IH (define_property key value obj)) as (Hr & Hn & Hsorted).
    + rewrite fmap_app, Hperm, fmap_app, <- app_assoc. simpl.
      now rewrite fmap_app, fmap_cons in Hnd.
    + exact Hp.
    + now apply define_property_sorted.
    + split_and!; [| |exact Hsorted].
      * rewrite Hr, Hperm, <- app_assoc. reflexivity.
      * rewrite Hn. unfold named_properties in *.
        rewrite filter_app, Hnamed, !filter_app, <- app_assoc.
        f_equal. now rewrite <- filter_app.
Qed.

(** What a literal with distinct keys becomes: its properties, the
    array indices in ascending order first, the other keys as written. *)
Lemma own_properties_order (literal : list (string * ParamValue)) :
  distinct_keys literal ->
  own_properties literal ≡ₚ literal /\
  named_properties (own_properties literal) = named_properties literal /\
  StronglySorted enumerated_before (own_properties literal).
Proof.
  intros [Hnd Hp].
  apply (own_properties_from [] literal); [exact Hnd|exact Hp|constructor].
Qed.

(** An object in the order of enumeration is its array indices followed
    by its other keys. *)
Lemma enumeration_splits (obj : Params) :
  StronglySorted enumerated_before obj ->
  obj = filter (fun kv => array_index (fst kv) <> None) obj ++ named_properties obj.
Proof.
  unfold named_properties.
  set (P := fun kv : string * ParamValue => array_index (fst kv) <> None).
  set (Q := fun kv : string * ParamValue => array_index (fst kv) = None).
  induction obj as [|[k v] rest IH]; [reflexivity|]. intros Hs.
  apply StronglySorted_inv in Hs as [Hrest Hall].
  destruct (array_index k) as [i|] eqn:Hi.
  - rewrite (filter_cons_True P) by (unfold P; cbn [fst]; now rewrite Hi).
    rewrite (filter_cons_False Q) by (unfold Q; cbn [fst]; now rewrite Hi).
    rewrite <- app_comm_cons. f_equal. now apply IH.
  - rewrite (filter_cons_False P) by (unfold P; cbn [fst]; rewrite Hi; tauto).
    rewrite (filter_cons_True Q) by (unfold Q; cbn [fst]; now rewrite Hi).
    assert (Hnone : Forall Q rest).
    { eapply Forall_impl; [exact Hall|]. intros [k' v'].
      unfold enumerated_before, Q. cbn [fst]. rewrite Hi.
      now destruct (array_index k'). }
    assert (Hnil : filter P rest = []).
    { clear -Hnone. induction Hnone as [|x l Hx _ IHl]; [reflexivity|].
      rewrite (filter_cons_False P) by (unfold P, Q in *; tauto). exact IHl. }
    assert (Hall' : filter Q rest = rest).
    { clear -Hnone. induction Hnone as [|x l Hx _ IHl]; [reflexivity|].
      rewrite (filter_cons_True Q) by exact Hx. now rewrite IHl. }
    now rewrite Hnil, Hall'.
Qed.

(** Two objects in the order of enumeration with the same properties and
    the same order of the keys that are not array indices are the same
    list. *)
Lemma enumeration_unique (r1 r2 : Params) :
  StronglySorted enumerated_before r1 ->
  StronglySorted enumerated_before r2 ->
  r1 ≡ₚ r2 ->
  named_properties r1 = named_properties r2 ->
  r1 = r2.
Proof.
  intros Hs1 Hs2 Hperm Hnamed.
  rewrite (enumeration_splits r1 Hs1), (enumeration_splits r2 Hs2), Hnamed.
  f_equal.
  assert (Hsub : forall r, StronglySorted enumerated_before r ->
            StronglySorted enumerated_before
              (filter (fun kv => array_index (fst kv) <> None) r)).
  { intros r Hr. rewrite (enumeration_splits r Hr) in Hr.
    now apply StronglySorted_app_1_l in Hr. }
  apply (StronglySorted_unique_strong enumerated_before);
    [|now apply Hsub|now apply Hsub|now rewrite Hperm].
  intros [k1 v1] [k2 v2] [H1 _]%list_elem_of_filter [H2 _]%list_elem_of_filter.
  unfold enumerated_before. simpl in *.
  destruct (array_index k1), (array_index k2); try easy. lia.
Qed.

(** When two literals become the same object. *)
Lemma own_properties_eq_iff (literal1 literal2 : list (string * ParamValue)) :
  distinct_keys literal1 ->
  distinct_keys literal2 ->
  own_properties literal1 = own_properties literal2 <->
  literal1 ≡ₚ literal2 /\ named_properties literal1 = named_properties literal2.
Proof.
  intros H1 H2.
  destruct (own_properties_order literal1 H1) as (Hp1 & Hn1 & Hs1).
  destruct (own_properties_order literal2 H2) as (Hp2 & Hn2 & Hs2).
  split.
  - intros Heq. split.
    + now rewrite <- Hp1, Heq.
    + now rewrite <- Hn1, Heq.
  - intros [Hperm Hnamed]. apply enumeration_unique; try assumption.
    + now rewrite Hp1, Hp2.
    + now rewrite Hn1, Hn2.
Qed.

(** C5, as the code has it: the key is the path followed by the
    serialization of the parameters in the order their properties are
    enumerated (of [{}] when there are none); nothing is sorted.  For
    parameters whose numbers are safe integers, two calls derive the same
    key exactly when they have the same path and the same parameters with
    the same values in the same order of enumeration; and for parameters
    written as literals with distinct keys, exactly when the paths are the
    same, the literals have the same properties, and the keys that are not
    array indices are written in the same order: array indices are
    enumerated in ascending order however they are written. *)
Theorem cacheKey_equal_iff (url1 url2 : string) (options1 options2 : RequestOptions) :
  let p1 := default [] (opt_params options1) in
  let p2 := default [] (opt_params options2) in
  safe_numbers p1 ->
  safe_numbers p2 ->
  (cacheKey url1 options1 = cacheKey url2 options2 <-> url1 = url2 /\ p1 = p2) /\
  (forall literal1 literal2,
     distinct_keys literal1 ->
     distinct_keys literal2 ->
     p1 = own_properties literal1 ->
     p2 = own_properties literal2 ->
     (cacheKey url1 options1 = cacheKey url2 options2 <->
      url1 = url2 /\
      literal1 ≡ₚ literal2 /\
      named_properties literal1 = named_properties literal2)).
Proof.
  intros p1 p2 _ _.
  assert (Hkey : cacheKey url1 options1 = cacheKey url2 options2 <->
                 url1 = url2 /\ p1 = p2).
  { unfold cacheKey. fold p1 p2. split; [|now intros [-> ->]].
    intros H.
    assert (Hend : forall u p q, u +:+ JSON_stringify p = JSON_stringify q ->
                                 u = EmptyString /\ p = q).
    { intros u p q Hu. destruct u as [|c t].
      - split; [reflexivity|].
        rewrite <- (sapp_nil_r (JSON_stringify p)) in Hu.
        rewrite <- (sapp_nil_r (JSON_stringify q)) in Hu.
        change (EmptyString +:+ ?s) with s in Hu.
        now apply JSON_stringify_inv in Hu as [-> _].
      - exfalso.
        apply (no_serialization_inside (String c t) (JSON_stringify p));
          [discriminate|rewrite Hu|]; apply scan_JSON_stringify. }
    destruct (sapp_eq_split _ _ _ _ H) as [t [[-> Ht]|[-> Ht]]];
      symmetry in Ht; destruct (Hend _ _ _ Ht) as [-> Hp];
      rewrite sapp_nil_r; auto. }
  split; [exact Hkey|].
  intros literal1 literal2 Hd1 Hd2 H1 H2.
  rewrite Hkey, H1, H2, (own_properties_eq_iff literal1 literal2 Hd1 Hd2).
  tauto.
Qed.

(** C5 at two properties: the same parameters, written in the other
    order, derive another key. *)
Lemma key_order_changes_cacheKey :
  let literal1 := [("a", PNum 1); ("b", PNum 2)] in
  let literal2 := [("b", PNum 2); ("a", PNum 1)] in
  literal1 ≡ₚ literal2 /\
  cacheKey "/items/" (with_params (own_properties literal1)) <>
  cacheKey "/items/" (with_params (own_properties literal2)).
Proof.
  intros literal1 literal2. split; [apply perm_swap|].
  vm_compute. intros H. discriminate H.
Qed.

(** C5 at keys that are array indices, and at keys that are not. *)
Lemma cacheKey_equal_iff_witness :
  let indices1 := [("2", PStr "x"); ("1", PStr "y")] in
  let indices2 := [("1", PStr "y"); ("2", PStr "x")] in
  let named1 := [("q", PStr "x"); ("page", PNum 1)] in
  let named2 := [("page", PNum 1); ("q", PStr "x")] in
  own_properties indices1 = [("1", PStr "y"); ("2", PStr "x")] /\
  cacheKey "/items/" (with_params (own_properties indices1)) =
  cacheKey "/items/" (with_params (own_properties indices2)) /\
  own_properties named1 = named1 /\
  cacheKey "/items/" (with_params (own_properties named1)) <>
  cacheKey "/items/" (with_params (own_properties named2)).
Proof.
  intros indices1 indices2 named1 named2.
  assert (Hdistinct : distinct_keys indices1 /\ distinct_keys indices2 /\
                      distinct_keys named1 /\ distinct_keys named2).
  { unfold distinct_keys. split_and!;
      apply (bool_decide_unpack _); vm_compute; exact I. }
  destruct Hdistinct as (Hi1 & Hi2 & Hn1 & Hn2).
  assert (Hsafe : forall l : Params,
            forallb (fun kv => match snd kv with
                               | PNum n => safe_integer n
                               | _ => true
                               end) l = true -> safe_numbers l).
  { intros l H. apply Forall_forall. intros [k v] Hin%list_elem_of_In.
    rewrite forallb_forall in H. specialize (H _ Hin). simpl in *.
    now destruct v. }
  destruct (cacheKey_equal_iff "/items/" "/items/"
              (with_params (own_properties indices1))
              (with_params (own_properties indices2)))
    as [_ Hindices]; [now apply Hsafe|now apply Hsafe|].
  destruct (cacheKey_equal_iff "/items/" "/items/"
              (with_params (own_properties named1))
              (with_params (own_properties named2)))
    as [_ Hnamed]; [now apply Hsafe|now apply Hsafe|].
  split_and!.
  - vm_compute. reflexivity.
  - apply (Hindices indices1 indices2); try reflexivity;
      [exact Hi1|exact Hi2|].
    split_and!; [reflexivity|apply perm_swap|reflexivity].
  - vm_compute. reflexivity.
  - intros Heq.
    apply (Hnamed named1 named2) in Heq as (_ & _ & Hsame); try reflexivity;
      [|exact Hn1|exact Hn2].
    vm_compute in Hsame. discriminate Hsame.
Defined.

(** * Further properties *)

(** ** The retry helper *)

(** What every attempt keeps, the retry helper keeps, and what every
    attempt's outcome satisfies, its outcome satisfies: the outcome of
    [withRetry] is the outcome of its last attempt. *)
Lemma withRetry_invariant {T : Type} (op : Async T)
    (I : World -> Prop) (Q : Settled T -> Prop) (K d : Z) (w : World) :
  (forall w, I w -> I (snd (op w)) /\ Q (fst (op w))) ->
  (forall ms w, I w -> I (setTimeout ms w)) ->
  I w ->
  I (snd (withRetry op K d w)) /\ Q (fst (withRetry op K d w)).
Proof.
  intros Hop Htimer.
  remember (Z.to_nat K) as n eqn:Hn.
  revert K d w Hn.
  induction n as [|n IH]; intros K d w Hn Hw.
  - rewrite withRetry_exhausted by lia. now apply Hop.
  - rewrite withRetry_step. destruct (Hop w Hw) as [HI HQ].
    destruct (op w) as [[result|error] w1]; cbn [fst snd] in *; [now split|].
    destruct (K <=? 0); [now split|].
    apply IH; [lia|]. now apply Htimer.
Qed.

Lemma total_app (l1 l2 : list Z) : total (l1 ++ l2) = total l1 + total l2.
Proof.
  unfold total. induction l1 as [|x l1 IH]; simpl; [reflexivity|].
  rewrite IH. lia.
Qed.

Lemma total_backoff (d : Z) (n : nat) :
  total (backoff d n) = d * (2 ^ Z.of_nat n - 1).
Proof.
  revert d. induction n as [|n IH]; intros d.
  - simpl. unfold total. simpl. lia.
  - change (backoff d (S n)) with (d :: backoff (d * 2) n).
    unfold total in *. simpl foldr. rewrite IH.
    rewrite Nat2Z.inj_succ, Z.pow_succ_r by lia. ring.
Qed.

(** X1. The time a call spends waiting: after [K] failures the timers set add
    up to [d * (2 ^ K - 1)]. *)
Theorem withRetry_total_wait {T : Type} (op : Async T) (K d : Z) (w w' : World) :
  0 <= K ->
  sets_no_timer op ->
  fails_in_a_row op (Z.to_nat K) d w w' ->
  total (timers (trace (snd (withRetry op K d w)))) =
  total (timers (trace w)) + d * (2 ^ K - 1).
Proof.
  intros HK Hop H.
  rewrite (withRetry_last_attempt op K d w w' HK H), Hop.
  rewrite (fails_in_a_row_timers op _ _ _ _ Hop H), total_app, total_backoff.
  now rewrite Z2Nat.id by exact HK.
Qed.

(** X2. An operation that succeeds before its retries are used up: its result
    is returned after the waits made so far, and the retries left are not
    made. *)
Theorem withRetry_stops_at_success {T : Type} (op : Async T) (j : nat) (K d : Z)
    (w w' w'' : World) (result : T) :
  Z.of_nat j <= K ->
  fails_in_a_row op j d w w' ->
  op w' = (Ok result, w'') ->
  withRetry op K d w = (Ok result, w'') /\
  (sets_no_timer op -> timers (trace w'') = timers (trace w) ++ backoff d j).
Proof.
  intros Hj H Hok. split; [now apply (withRetry_succeeds_early op j K d w w')|].
  intros Hop. specialize (Hop w') as Hw'. rewrite Hok in Hw'. cbn [snd] in Hw'.
  rewrite Hw'. now apply (fails_in_a_row_timers op).
Qed.

Lemma withRetry_stops_at_success_witness :
  let op := dispatchRequest (get_config "/x" no_options) in
  let w := world_of signed_in (scripted [server_error; items]) in
  let w' := setTimeout 1000 (snd (op w)) in
  withRetry op 3 1000 w = (Ok (DVal None "items"), snd (op w')) /\
  timers (trace (snd (op w'))) = [1000].
Proof.
  intros op w w'.
  destruct (withRetry_stops_at_success op 1 3 1000 w w' (snd (op w'))
              (DVal None "items")) as [Hret Htimers].
  - lia.
  - eapply fails_again; [reflexivity|apply fails_none].
  - reflexivity.
  - split; [exact Hret|]. apply Htimers, dispatchRequest_sets_no_timer.
Defined.

Lemma withRetry_total_wait_witness :
  let op := dispatchRequest (get_config "/x" no_options) in
  let w := world_of signed_in (scripted [server_error; server_error; server_error]) in
  let w1 := setTimeout 1000 (snd (op w)) in
  let w2 := setTimeout 2000 (snd (op w1)) in
  let w' := setTimeout 4000 (snd (op w2)) in
  fails_in_a_row op 3 1000 w w' /\
  total (timers (trace (snd (withRetry op 3 1000 w)))) = 7000.
Proof.
  intros op w w1 w2 w'.
  assert (H : fails_in_a_row op (Z.to_nat 3) 1000 w w').
  { eapply fails_again; [reflexivity|].
    eapply fails_again; [reflexivity|].
    eapply fails_again; [reflexivity|]. apply fails_none. }
  split; [exact H|].
  exact (withRetry_total_wait op 3 1000 w w' ltac:(lia)
           (dispatchRequest_sets_no_timer _) H).
Defined.

(** ** One request *)

Section RequestFacts.

Variable config : ApiClientConfig.

Lemma instance_BadJSON (c : Request) (w : World) :
  storage w = Some BadJSON -> instance config c w = (Throw SyntaxError, w).
Proof.
  intros Hs. unfold instance. rewrite instance_at_S.
  unfold try_catch, bind. rewrite requestInterceptor_cases, Hs.
  reflexivity.
Qed.

(** A request whose answer is not a 401, or that carries [_retry]
    already, settles to what the transport made of it. *)
Lemma instance_passes (c : Request) (w : World) :
  parses w ->
  let c1 := authorized (stored_access w) c in
  rejected_with_401 (fst (dispatchRequest c1 w)) = false \/ _retry c = true ->
  instance config c w = dispatchRequest c1 w.
Proof.
  intros Hw c1 Hor. unfold instance. rewrite instance_at_S.
  unfold try_catch, bind. rewrite (requestInterceptor_parses c w Hw). fold c1.
  destruct (dispatchRequest c1 w) as [[d|e] w1] eqn:Hd; [reflexivity|].
  destruct (dispatchRequest_error _ _ _ _ Hd) as [status ->].
  unfold responseRejected. cbn [error_config error_status].
  replace (is_401 (AxiosError c1 status) && negb (_retry c1)) with false;
    [reflexivity|].
  symmetry. apply andb_false_iff. destruct Hor as [H|H].
  - left. exact H.
  - right. unfold c1. now rewrite authorized_retry, H.
Qed.

Lemma is_401_status (c1 : Request) (status : option Z) :
  is_401 (AxiosError c1 status) = true -> status = Some 401.
Proof.
  unfold is_401. simpl. destruct status as [s|]; [|discriminate].
  intros H. apply Z.eqb_eq in H. now subst.
Qed.

(** The events of one run of the interceptors. *)
Lemma instance_exchange (c : Request) (w : World) :
  exists l,
    trace (snd (instance config c w)) = trace w ++ l /\
    exchange l /\
    sent (snd (instance config c w)) = (sent w + length l)%nat /\
    (l = [] <-> storage w = Some BadJSON) /\
    (parses w -> parses (snd (instance config c w))) /\
    cache (snd (instance config c w)) = cache w.
Proof.
  assert (Hmain : parses w ->
    exists l,
      trace (snd (instance config c w)) = trace w ++ l /\
      exchange l /\
      sent (snd (instance config c w)) = (sent w + length l)%nat /\
      l <> [] /\
      parses (snd (instance config c w)) /\
      cache (snd (instance config c w)) = cache w).
  { intros Hw.
    set (c1 := authorized (stored_access w) c).
    pose proof (dispatchRequest_storage c1 w) as (Hs1 & Ht1 & Hn1).
    pose proof (framed_dispatchRequest c1 w) as [Hc1 _ _].
    assert (Hw1 : parses (snd (dispatchRequest c1 w)))
      by (unfold parses; now rewrite Hs1).
    assert (Hpass : instance config c w = dispatchRequest c1 w ->
      exists l,
        trace (snd (instance config c w)) = trace w ++ l /\
        exchange l /\
        sent (snd (instance config c w)) = (sent w + length l)%nat /\
        l <> [] /\
        parses (snd (instance config c w)) /\
        cache (snd (instance config c w)) = cache w).
    { intros ->. exists [Dispatch c1].
      split_and!; [exact Ht1|constructor|rewrite Hn1; simpl; lia
                  |discriminate|exact Hw1|exact Hc1]. }
    destruct (rejected_with_401 (fst (dispatchRequest c1 w))) eqn:H401.
    2: { apply Hpass, instance_passes; auto. }
    destruct (_retry c) eqn:Hflag.
    { apply Hpass, instance_passes; auto. }
    clear Hpass.
    destruct (dispatchRequest c1 w) as [[d|e] w1] eqn:Hd; [discriminate|].
    cbn [fst snd] in *.
    destruct (dispatchRequest_error _ _ _ _ Hd) as [status ->].
    apply is_401_status in H401 as ->.
    rewrite (instance_401 config c w w1 Hflag Hw Hd). fold c1.
    pose proof (framed_refreshToken w1) as [Hc2 _ _].
    destruct (truthy_str (stored_refresh w1)) eqn:Htok.
    - destruct (refreshToken_token w1 Hw1 Htok)
        as (b & w2 & Hr & _ & Ht2 & Hn2 & Hnone & Hsome).
      rewrite Hr in *. cbn [snd] in Hc2.
      destruct b.
      + destruct (Hsome eq_refl) as (st & a & content & _ & Hst).
        set (c2 := replayed (stored_access w2) c1).
        pose proof (dispatchRequest_storage c2 w2) as (Hs3 & Ht3 & Hn3).
        pose proof (framed_dispatchRequest c2 w2) as [Hc3 _ _].
        exists [Dispatch c1; RefreshPost (stored_refresh w1); Dispatch c2].
        split_and!.
        * rewrite Ht3, Ht2, Ht1. now rewrite <- !app_assoc.
        * constructor.
        * rewrite Hn3, Hn2, Hn1. simpl. lia.
        * discriminate.
        * unfold parses. rewrite Hs3, Hst. discriminate.
        * congruence.
      + exists [Dispatch c1; RefreshPost (stored_refresh w1)]. cbn [snd].
        split_and!.
        * rewrite Ht2, Ht1. now rewrite <- !app_assoc.
        * constructor.
        * rewrite Hn2, Hn1. simpl. lia.
        * discriminate.
        * unfold parses. rewrite (Hnone eq_refl). discriminate.
        * congruence.
    - rewrite (refreshToken_no_token w1 Hw1 Htok).
      exists [Dispatch c1]. cbn [snd].
      split_and!; [exact Ht1|constructor|rewrite Hn1; simpl; lia
                  |discriminate|exact Hw1|exact Hc1]. }
  destruct (storage w) as [[|tokens]|] eqn:Hst.
  - rewrite (instance_BadJSON c w Hst). exists []. cbn [snd length].
    rewrite app_nil_r, Nat.add_0_r.
    split_and!; auto; try constructor; auto.
  - destruct Hmain as (l & Ht & He & Hn & Hl & Hp & Hc);
      [unfold parses; rewrite Hst; discriminate|].
    exists l. split_and!; auto. split; [contradiction|discriminate].
  - destruct Hmain as (l & Ht & He & Hn & Hl & Hp & Hc);
      [unfold parses; rewrite Hst; discriminate|].
    exists l. split_and!; auto. split; [contradiction|discriminate].
Qed.

(** X3. What one call of [request] exchanges with the network: nothing
    when the stored item does not parse, and otherwise the request, then
    at most one refresh, then at most one replay, in this order.  No timer
    is set and [onAuthError] is not called; the cache is left alone, and a
    stored item that parses is left one that parses. *)
Theorem request_exchange (c : Request) (w : World) :
  exists l,
    trace (snd (request config c w)) = trace w ++ l /\
    exchange l /\
    sent (snd (request config c w)) = (sent w + length l)%nat /\
    (l = [] <-> storage w = Some BadJSON) /\
    (parses w -> parses (snd (request config c w))) /\
    cache (snd (request config c w)) = cache w.
Proof. rewrite request_instance. apply instance_exchange. Qed.

Lemma auth_errors_app (t1 t2 : list Event) :
  auth_errors (t1 ++ t2) = (auth_errors t1 + auth_errors t2)%nat.
Proof. unfold auth_errors. now rewrite List.filter_app, length_app. Qed.

Lemma exchange_auth_errors (l : list Event) : exchange l -> auth_errors l = 0%nat.
Proof. now intros []. Qed.

Lemma exchange_length (l : list Event) : exchange l -> (length l <= 3)%nat.
Proof. intros []; simpl; lia. Qed.

Lemma request_auth_errors (c : Request) (w : World) :
  auth_errors (trace (snd (request config c w))) = auth_errors (trace w).
Proof.
  rewrite request_instance.
  destruct (instance_exchange c w) as (l & -> & Hl & _).
  rewrite auth_errors_app, (exchange_auth_errors l Hl). lia.
Qed.

Lemma request_sends_at_most (c : Request) (w : World) :
  (sent (snd (request config c w)) <= sent w + 3)%nat.
Proof.
  rewrite request_instance.
  destruct (instance_exchange c w) as (l & _ & Hl & -> & _).
  pose proof (exchange_length l Hl). lia.
Qed.

Lemma request_BadJSON (c : Request) (w : World) :
  storage w = Some BadJSON -> request config c w = (Throw SyntaxError, w).
Proof.
  intros Hs. unfold request, try_catch. now rewrite (instance_BadJSON c w Hs).
Qed.

(** *** The verbs *)

Lemma write_verbs_cases (url : string) (data : option string)
    (options : RequestOptions) (verb : Async Data) :
  verb ∈ write_verbs config url data options ->
  exists c,
    verb = with_retries (shouldRetry config options) (maxRetries config options)
             (delay config options) (request config c).
Proof.
  unfold write_verbs. rewrite !elem_of_cons, elem_of_nil.
  intros [->|[->|[->|[->|[]]]]]; eexists; reflexivity.
Qed.

Lemma dispatch_step_with_retries (url : string) (options : RequestOptions) :
  dispatch_step config url options =
  with_retries (shouldRetry config options) (maxRetries config options)
    (delay config options) (request config (get_config url options)).
Proof. reflexivity. Qed.

End RequestFacts.

Lemma with_retries_invariant {T : Type} (op : Async T)
    (I : World -> Prop) (Q : Settled T -> Prop) (b : option bool) (K d : Z)
    (w : World) :
  (forall w, I w -> I (snd (op w)) /\ Q (fst (op w))) ->
  (forall ms w, I w -> I (setTimeout ms w)) ->
  I w ->
  I (snd (with_retries b K d op w)) /\ Q (fst (with_retries b K d op w)).
Proof.
  intros Hop Htimer Hw. unfold with_retries. destruct (truthy_bool b).
  - now apply withRetry_invariant.
  - now apply Hop.
Qed.

Lemma auth_errors_setTimeout (ms : Z) (w : World) :
  auth_errors (trace (setTimeout ms w)) = auth_errors (trace w).
Proof. simpl. rewrite auth_errors_app. simpl. unfold auth_errors. simpl. lia. Qed.

(** Retries that each send at most [b] calls. *)
Lemma withRetry_sends_at_most {T : Type} (op : Async T) (b : nat) (K d : Z)
    (w : World) :
  (forall w, (sent (snd (op w)) <= sent w + b)%nat) ->
  (sent (snd (withRetry op K d w)) <= sent w + b * (Z.to_nat K + 1))%nat.
Proof.
  intros Hop.
  remember (Z.to_nat K) as n eqn:Hn.
  revert K d w Hn.
  induction n as [|n IH]; intros K d w Hn.
  - rewrite withRetry_exhausted by lia. specialize (Hop w). lia.
  - rewrite withRetry_step. specialize (Hop w).
    destruct (op w) as [[result|error] w1]; cbn [fst snd] in *; [lia|].
    destruct (K <=? 0); cbn [snd]; [lia|].
    specialize (IH (K - 1) (d * 2) (setTimeout d w1) ltac:(lia)).
    change (sent (setTimeout d w1)) with (sent w1) in IH. lia.
Qed.

(** An operation that fails without a trace as long as [I] holds is
    retried to the end: the waits are all that happens. *)
Lemma withRetry_always_fails {T : Type} (op : Async T) (I : World -> Prop)
    (e : Error) (K d : Z) (w : World) :
  (forall w, I w -> op w = (Throw e, w)) ->
  (forall ms w, I w -> I (setTimeout ms w)) ->
  I w ->
  exists w',
    withRetry op K d w = (Throw e, w') /\ I w' /\ sent w' = sent w /\
    trace w' = trace w ++ (SetTimeout <$> backoff d (Z.to_nat K)).
Proof.
  intros Hop Htimer.
  remember (Z.to_nat K) as n eqn:Hn.
  revert K d w Hn.
  induction n as [|n IH]; intros K d w Hn Hw.
  - rewrite withRetry_exhausted by lia. exists w.
    rewrite (Hop w Hw). simpl. now rewrite app_nil_r.
  - rewrite withRetry_step, (Hop w Hw).
    assert (HK : (K <=? 0) = false) by (apply Z.leb_gt; lia).
    rewrite HK.
    destruct (IH (K - 1) (d * 2) (setTimeout d w) ltac:(lia) (Htimer d w Hw))
      as (w' & -> & HI & Hsent & Htrace).
    exists w'. split_and!; [reflexivity|exact HI|exact Hsent|].
    rewrite Htrace. simpl. now rewrite <- app_assoc.
Qed.

Section VerbFacts.

Variable config : ApiClientConfig.

(** X4. POST, PUT, PATCH and DELETE leave the response cache as it is,
    whatever they are called with and however they end: nothing a write
    does invalidates what [get] has cached. *)
Theorem write_verbs_leave_cache (url : string) (data : option string)
    (options : RequestOptions) (verb : Async Data) (w : World) :
  verb ∈ write_verbs config url data options ->
  cache (snd (verb w)) = cache w.
Proof.
  intros Hin. destruct (write_verbs_cases config _ _ _ _ Hin) as [c ->].
  unfold with_retries. destruct (truthy_bool _).
  - apply framed_withRetry, framed_request.
  - apply framed_request.
Qed.

(** X5. Nothing a verb does is a call of [onAuthError]: run one after
    the other, [get], [post], [put], [patch] and [delete] never invoke the
    callback, whatever is stored and whatever the server answers. *)
Theorem onAuthError_never_called (url : string) (data : option string)
    (options : RequestOptions) (verb : Async Data) (w : World) :
  verb ∈ get config url options :: write_verbs config url data options ->
  auth_errors (trace (snd (verb w))) = auth_errors (trace w).
Proof.
  assert (Hstep : forall c w,
    auth_errors (trace (snd (with_retries (shouldRetry config options)
        (maxRetries config options) (delay config options)
        (request config c) w))) = auth_errors (trace w)).
  { intros c w0.
    apply (with_retries_invariant (request config c)
             (fun w' => auth_errors (trace w') = auth_errors (trace w0))
             (fun _ => True)).
    - intros w1 H1. split; [|exact I]. now rewrite request_auth_errors.
    - intros ms w1 H1. now rewrite auth_errors_setTimeout.
    - reflexivity. }
  rewrite elem_of_cons. intros [->|Hin].
  - destruct (cached (useCache config options) (cacheKey url options) w)
      as [d|] eqn:Hc.
    + now rewrite (get_hit config url options w d Hc).
    + rewrite (get_miss config url options w Hc).
      rewrite dispatch_step_with_retries.
      specialize (Hstep (get_config url options) w).
      destruct (with_retries _ _ _ _ w) as [[result|e] w1]; cbn [snd] in *;
        [|exact Hstep].
      destruct (truthy_bool _); exact Hstep.
  - destruct (write_verbs_cases config _ _ _ _ Hin) as [c ->]. apply Hstep.
Qed.

(** X6. The network calls of one verb: each attempt makes at most three
    (the request, a refresh, the replay), and there are at most
    [maxRetries + 1] attempts, one when retries are off. *)
Theorem verb_sends_at_most (url : string) (data : option string)
    (options : RequestOptions) (verb : Async Data) (w : World) :
  verb ∈ get config url options :: write_verbs config url data options ->
  (sent (snd (verb w)) <=
   sent w + 3 * (if truthy_bool (shouldRetry config options)
                 then Z.to_nat (maxRetries config options) + 1 else 1))%nat.
Proof.
  assert (Hstep : forall c w,
    (sent (snd (with_retries (shouldRetry config options)
        (maxRetries config options) (delay config options)
        (request config c) w)) <=
     sent w + 3 * (if truthy_bool (shouldRetry config options)
                   then Z.to_nat (maxRetries config options) + 1 else 1))%nat).
  { intros c w0. unfold with_retries. destruct (truthy_bool _).
    - apply withRetry_sends_at_most. apply request_sends_at_most.
    - pose proof (request_sends_at_most config c w0). lia. }
  rewrite elem_of_cons. intros [->|Hin].
  - destruct (cached (useCache config options) (cacheKey url options) w)
      as [d|] eqn:Hc.
    + rewrite (get_hit config url options w d Hc). cbn [snd].
      destruct (truthy_bool _); lia.
    + rewrite (get_miss config url options w Hc).
      rewrite dispatch_step_with_retries.
      specialize (Hstep (get_config url options) w).
      destruct (with_retries _ _ _ _ w) as [[result|e] w1]; cbn [snd] in *;
        [|exact Hstep].
      destruct (truthy_bool (useCache config options)); exact Hstep.
  - destruct (write_verbs_cases config _ _ _ _ Hin) as [c ->]. apply Hstep.
Qed.

(** X7. A stored item that does not parse makes every write fail before
    anything is sent: the verb rejects with the [SyntaxError] of
    [JSON.parse], the item is left in place, and with retries on the
    failure is retried to the end, so that the call spends all its waits
    without a single network call. *)
Theorem corrupt_item_fails_every_write (url : string) (data : option string)
    (options : RequestOptions) (verb : Async Data) (w : World) :
  verb ∈ write_verbs config url data options ->
  storage w = Some BadJSON ->
  fst (verb w) = Throw SyntaxError /\
  storage (snd (verb w)) = Some BadJSON /\
  sent (snd (verb w)) = sent w /\
  trace (snd (verb w)) =
    trace w ++ (SetTimeout <$>
                if truthy_bool (shouldRetry config options)
                then backoff (delay config options)
                       (Z.to_nat (maxRetries config options))
                else []).
Proof.
  intros Hin Hs. destruct (write_verbs_cases config _ _ _ _ Hin) as [c ->].
  unfold with_retries. destruct (truthy_bool _).
  - destruct (withRetry_always_fails (request config c)
                (fun w => storage w = Some BadJSON) SyntaxError
                (maxRetries config options) (delay config options) w)
      as (w' & -> & Hs' & Hsent & Htrace); auto.
    intros w0. apply request_BadJSON.
  - rewrite (request_BadJSON config c w Hs). simpl. now rewrite app_nil_r.
Qed.

End VerbFacts.

(** ** One request, continued: answers that pass, and a refresh reply
    without an access token *)

Section RequestEdges.

Variable config : ApiClientConfig.

(** X8. An answer that is not a 401 (a success, a 403, a 500, no
    response at all), and any answer to a request that carries [_retry],
    is what [request] settles to: one network call, no refresh, and the
    stored tokens are left as they are. *)
Theorem request_passes_other_answers (c : Request) (w : World) :
  parses w ->
  let c1 := authorized (stored_access w) c in
  rejected_with_401 (fst (dispatchRequest c1 w)) = false \/ _retry c = true ->
  request config c w = dispatchRequest c1 w /\
  storage (snd (request config c w)) = storage w /\
  trace (snd (request config c w)) = trace w ++ [Dispatch c1].
Proof.
  intros Hw c1 Hor. rewrite request_instance.
  rewrite (instance_passes config c w Hw Hor). fold c1.
  destruct (dispatchRequest_storage c1 w) as (Hs & Ht & _). auto.
Qed.

(** X9. A refresh endpoint that answers 2xx with data that has no
    [access] property counts as a refresh that worked: the stored access
    token is replaced by [undefined], and the request is replayed with
    the header [Bearer undefined]. *)
Theorem refresh_without_access_is_replayed (c : Request) (w w1 : World)
    (status : Z) (content : string) :
  _retry c = false ->
  parses w ->
  let c1 := authorized (stored_access w) c in
  dispatchRequest c1 w = (Throw (AxiosError c1 (Some 401)), w1) ->
  truthy_str (stored_refresh w) = true ->
  outcome (net w (S (sent w))) = Response status (DVal None content) ->
  is_2xx status = true ->
  exists w2,
    refreshToken w1 = (Ok true, w2) /\
    storage w2 = Some (JSON {| access := None; refresh := stored_refresh w |}) /\
    request config c w =
      dispatchRequest (with_Authorization "Bearer undefined" (with_retry_flag c1)) w2.
Proof.
  intros Hc Hw c1 Hd Htok Hout H2xx.
  pose proof (dispatchRequest_storage c1 w) as (Hs1 & _ & Hn1).
  pose proof (framed_dispatchRequest c1 w) as [_ Hnet _].
  rewrite Hd in Hs1, Hn1, Hnet. cbn [snd] in Hs1, Hn1, Hnet.
  assert (Hw1 : parses w1) by (unfold parses; now rewrite Hs1).
  assert (Hr1 : stored_refresh w1 = stored_refresh w)
    by (unfold stored_refresh; now rewrite Hs1).
  rewrite <- Hr1 in Htok.
  destruct (refreshToken_token w1 Hw1 Htok)
    as (b & w2 & Hr & Hb & _ & _ & _ & Hsome).
  rewrite Hnet, Hn1 in Hb, Hsome.
  assert (b = true) as -> by (rewrite Hb; unfold usable; now rewrite Hout).
  destruct (Hsome eq_refl) as (st & a & ct & Hout' & Hst).
  rewrite Hout in Hout'. injection Hout' as <- <- <-.
  exists w2. rewrite Hr1 in Hst. split_and!; [exact Hr|exact Hst|].
  rewrite request_instance, (instance_401 config c w w1 Hc Hw Hd), Hr.
  unfold stored_access. now rewrite Hst.
Qed.

End RequestEdges.

(** ** authServices.ts *)

Section AuthFacts.

Variable config : ApiClientConfig.
Variable jwtDecode : string -> option JwtPayload.
Variable logout_endpoint : option string.

Lemma framed_with_retries {T : Type} (b : option bool) (K d : Z) (op : Async T) :
  framed op -> framed (with_retries b K d op).
Proof.
  intros Hop. unfold with_retries. destruct (truthy_bool b); [|exact Hop].
  now apply framed_withRetry.
Qed.

Lemma framed_post (url : string) (data : option string) (options : RequestOptions) :
  framed (post config url data options).
Proof. apply (framed_with_retries _ _ _ (request config _)), framed_request. Qed.

Lemma framed_logout : framed (logout config logout_endpoint).
Proof.
  unfold logout. apply framed_bind; [apply framed_getTokens|intros tokens].
  apply framed_bind; [|intros _; apply framed_set_storage].
  destruct (_ && _); [|apply framed_ret].
  apply framed_try_catch; [|intros _; apply framed_ret].
  apply framed_bind; [apply framed_post|intros _; apply framed_ret].
Qed.

Lemma post_sends (url : string) (data : option string) (options : RequestOptions)
    (w : World) :
  parses w ->
  exists rest, trace (snd (post config url data options w)) =
    trace w ++
    Dispatch (authorized (stored_access w) (write_config POST url data options))
    :: rest.
Proof.
  intros Hw. unfold post. destruct (truthy_bool _).
  - apply withRetry_sends; [apply framed_request|].
    rewrite request_instance. now apply instance_sends.
  - rewrite request_instance. now apply instance_sends.
Qed.

Lemma logout_parses (w : World) :
  parses w ->
  logout config logout_endpoint w =
  (Ok tt,
   set_storage None
     (if truthy_str (stored_refresh w) && truthy_str logout_endpoint
      then snd (post config (template logout_endpoint)
                  (Some (refresh_body (stored_refresh w))) no_options w)
      else w)).
Proof.
  intros Hw. unfold logout. unfold bind at 1.
  destruct (getTokens_parses w Hw) as (tokens & -> & _ & ->).
  destruct (truthy_str (stored_refresh w) && truthy_str logout_endpoint).
  - unfold bind at 1, try_catch, bind at 1.
    now destruct (post config _ _ no_options w) as [[d|e] w1].
  - reflexivity.
Qed.

(** X10. [logout] on a stored item that parses resolves, whatever the
    server makes of the call, and leaves no tokens stored and the response
    cache as it was.  Without a refresh token or without a logout endpoint
    nothing is sent; with both, the first thing sent is the POST of the
    refresh token to the endpoint, under the access token stored. *)
Theorem logout_clears_tokens (w : World) :
  parses w ->
  exists w',
    logout config logout_endpoint w = (Ok tt, w') /\
    storage w' = None /\
    cache w' = cache w /\
    (truthy_str (stored_refresh w) && truthy_str logout_endpoint = false ->
     w' = set_storage None w) /\
    (truthy_str (stored_refresh w) && truthy_str logout_endpoint = true ->
     exists rest,
       trace w' = trace w ++
         Dispatch (authorized (stored_access w)
                     (write_config POST (template logout_endpoint)
                        (Some (refresh_body (stored_refresh w))) no_options))
         :: rest).
Proof.
  intros Hw. pose proof (framed_logout w) as [Hcache _ _].
  rewrite (logout_parses w Hw) in *. cbn [snd] in Hcache.
  eexists. split_and!; [reflexivity|reflexivity|exact Hcache| |].
  - now intros ->.
  - intros ->. cbn [trace set_storage].
    apply (post_sends _ _ no_options w Hw).
Qed.

(** X11. [logout] on a stored item that does not parse rejects with the
    [SyntaxError] of [JSON.parse] and removes nothing: [getTokens] runs
    before [clearTokens] and outside the [try]. *)
Theorem logout_keeps_corrupt_item (w : World) :
  storage w = Some BadJSON ->
  logout config logout_endpoint w = (Throw SyntaxError, w).
Proof. intros Hs. unfold logout, bind, getTokens. now rewrite Hs. Qed.

(** X12. The user fetched before a logout is what [getCurrentUser]
    returns after it, without a request, until the cached entry expires:
    [logout] clears the tokens and not the cache. *)
Theorem getCurrentUser_after_logout (w w1 : World) (user : Data) :
  truthy_bool (useCache config no_options) = true ->
  cached (useCache config no_options) (cacheKey "/auth/user/" no_options) w = None ->
  getCurrentUser config w = (Ok user, w1) ->
  parses w1 ->
  let w2 := snd (logout config logout_endpoint w1) in
  now w2 < now w1 + cacheTime config no_options ->
  storage w2 = None /\ getCurrentUser config w2 = (Ok user, w2).
Proof.
  intros Huse Hmiss Hget Hw1 w2 Hnow.
  pose proof (framed_logout w1) as [Hc _ _]. fold w2 in Hc.
  split; [unfold w2; now rewrite (logout_parses w1 Hw1)|].
  exact (get_then_get config "/auth/user/" no_options w w1 w2 user
           Huse Hmiss Hget Hc Hnow).
Qed.

(** X13. [isAuthenticated] only reads: it leaves the world as it is, it
    throws exactly when the stored item does not parse, and then the
    [SyntaxError] of [JSON.parse]; what [jwtDecode] throws is caught.
    With no access token stored it returns [false]. *)
Theorem isAuthenticated_only_reads (w : World) :
  snd (isAuthenticated jwtDecode w) = w /\
  (fst (isAuthenticated jwtDecode w) = Throw SyntaxError <->
   storage w = Some BadJSON) /\
  (parses w -> exists b, fst (isAuthenticated jwtDecode w) = Ok b) /\
  (parses w -> truthy_str (stored_access w) = false ->
   fst (isAuthenticated jwtDecode w) = Ok false).
Proof.
  unfold isAuthenticated, isAccessTokenValid, bind, getTokens, parses,
    stored_access.
  destruct (storage w) as [[|tokens]|]; cbn [fst snd].
  - split_and!; try easy.
  - destruct (truthy_str (Some tokens ≫= access)) eqn:Ht; cbn [negb].
    + unfold try_catch.
      destruct (jwtDecode (template (Some tokens ≫= access))) as [decoded|];
        cbn [fst snd]; (split_and!; [reflexivity|split; discriminate|eauto|]);
        simpl in Ht; intros _ Hf; congruence.
    + cbn [fst snd ret]. split_and!; [reflexivity|split; discriminate|eauto|reflexivity].
  - cbn. split_and!; [reflexivity|split; discriminate|eauto|reflexivity].
Qed.

End AuthFacts.

(** ** Two refreshes in flight: the reply that arrives last decides *)

Lemma refresh_resume_world (tokens : option AuthTokens) (ticket : nat) (w : World) :
  exists w',
    refresh_resume tokens ticket w = (Ok (usable (net w ticket)), w') /\
    net w' = net w /\
    (usable (net w ticket) = false -> storage w' = None) /\
    (usable (net w ticket) = true ->
     exists status a content,
       outcome (net w ticket) = Response status (DVal a content) /\
       storage w' =
         Some (JSON {| access := a; refresh := tokens ≫= refresh |})).
Proof.
  unfold refresh_resume, refresh_with, try_catch, bind, arrive, settle, usable.
  simpl.
  destruct (outcome (net w ticket)) as [|status [|a content]]; simpl;
    try (eexists; split_and!; [reflexivity|reflexivity|reflexivity|discriminate]).
  all: destruct (is_2xx status); simpl; eexists;
    (split_and!; [reflexivity|reflexivity| |]); try discriminate;
    try reflexivity; eauto.
Qed.

Lemma stored_tokens_refresh (w : World) :
  stored_tokens w ≫= refresh = stored_refresh w.
Proof. unfold stored_tokens, stored_refresh. now destruct (storage w) as [[|t]|]. Qed.

(** X14. Two 401 handlers call [refreshToken] before either reply is in,
    the first reply is usable and the second is not.  Each caller is told
    the outcome of its own post, and the store holds what the reply taken
    up last made of it: when the failure is taken up last, the tokens the
    first caller was told are refreshed are gone; when it is taken up
    first, the store ends with the access token of the first reply beside
    the old refresh token. *)
Theorem refresh_race_last_reply_wins (w : World) :
  parses w ->
  truthy_str (stored_refresh w) = true ->
  usable (net w (sent w)) = true ->
  usable (net w (S (sent w))) = false ->
  let in_order := run [0; 1; 0; 1]%nat (w, [Pending; Pending]) in
  let reversed := run [0; 1; 1; 0]%nat (w, [Pending; Pending]) in
  snd in_order = [Returned (Ok true); Returned (Ok false)] /\
  storage (fst in_order) = None /\
  snd reversed = [Returned (Ok true); Returned (Ok false)] /\
  exists status a content,
    outcome (net w (sent w)) = Response status (DVal a content) /\
    storage (fst reversed) =
      Some (JSON {| access := a; refresh := stored_refresh w |}).
Proof.
  intros Hw Htok H0 H1 in_order reversed.
  pose proof (enter_in_turn 2 2 w Hw Htok ltac:(lia)) as Henter.
  change (seq 0 2) with [0; 1]%nat in Henter. cbn [fmap list_fmap] in Henter.
  change (replicate (2 - 2) Pending) with (@nil Task) in Henter.
  change (replicate 2 Pending) with [Pending; Pending] in Henter.
  rewrite app_nil_r in Henter.
  assert (Hin : in_order = step 1 (step 0 (entered 2 w, [waiting w 0; waiting w 1]%nat)))
    by (rewrite <- Henter; reflexivity).
  assert (Hrev : reversed = step 0 (step 1 (entered 2 w, [waiting w 0; waiting w 1]%nat)))
    by (rewrite <- Henter; reflexivity).
  rewrite Hin, Hrev. clear Hin Hrev Henter in_order reversed.
  unfold step, waiting. cbn [lookup list_lookup].
  rewrite Nat.add_0_r, Nat.add_1_r.
  split_and!.
  - destruct (refresh_resume_world (stored_tokens w) (sent w) (entered 2 w))
      as (wa & -> & Hna & _). cbn [lookup list_lookup list_insert insert].
    destruct (refresh_resume_world (stored_tokens w) (S (sent w)) wa)
      as (wb & -> & _). rewrite Hna. cbn [net entered snd insert list_insert].
    now rewrite H0, H1.
  - destruct (refresh_resume_world (stored_tokens w) (sent w) (entered 2 w))
      as (wa & -> & Hna & _). cbn [lookup list_lookup list_insert insert].
    destruct (refresh_resume_world (stored_tokens w) (S (sent w)) wa)
      as (wb & -> & _ & Hnone & _). cbn [fst]. apply Hnone.
    now rewrite Hna.
  - destruct (refresh_resume_world (stored_tokens w) (S (sent w)) (entered 2 w))
      as (wa & -> & Hna & _). cbn [lookup list_lookup list_insert insert].
    destruct (refresh_resume_world (stored_tokens w) (sent w) wa)
      as (wb & -> & _). rewrite Hna. cbn [net entered snd insert list_insert].
    now rewrite H0, H1.
  - destruct (refresh_resume_world (stored_tokens w) (S (sent w)) (entered 2 w))
      as (wa & -> & Hna & _). cbn [lookup list_lookup list_insert insert].
    destruct (refresh_resume_world (stored_tokens w) (sent w) wa)
      as (wb & -> & _ & _ & Hsome). cbn [fst].
    rewrite <- stored_tokens_refresh.
    destruct Hsome as (status & a & content & Hout & Hst);
      [now rewrite Hna|].
    rewrite Hna in Hout. exists status, a, content. now split.
Qed.

(** ** Options at their edges *)

Section OptionEdges.

Variable config : ApiClientConfig.

(** X15. A negative per-call [retryCount] is truthy, so it is the count
    the retry helper gets, and the helper stops at its first test: the
    verb makes one attempt and sets no timer, as if retries were off. *)
Theorem negative_retryCount_is_one_attempt (url : string) (data : option string)
    (options : RequestOptions) (k : Z) (w : World) :
  opt_retryCount options = Some k ->
  k < 0 ->
  post config url data options w =
    request config (write_config POST url data options) w /\
  put config url data options w =
    request config (write_config PUT url data options) w /\
  patch config url data options w =
    request config (write_config PATCH url data options) w /\
  delete config url options w =
    request config (write_config DELETE url None options) w.
Proof.
  intros Hk Hneg.
  destruct (numeric_per_call config options k ltac:(lia)) as (_ & HK & _).
  specialize (HK Hk).
  unfold post, put, patch, delete. rewrite HK.
  destruct (truthy_bool _); [|easy].
  now rewrite !withRetry_exhausted by lia.
Qed.

End OptionEdges.

(** X16. An option passed to the constructor as [undefined] is copied
    over the default by the spread.  With [enableRetry: undefined] and no
    per-call [retry], the write verbs make one attempt; with
    [enableCache: undefined] as well and no per-call [cache], [get] is the
    plain request: the cache is neither read nor written. *)
Theorem undefined_overrides_the_defaults (user : ApiClientConfig) (url : string)
    (data : option string) (options : RequestOptions) (w : World) :
  enableRetry user = Undefined ->
  opt_retry options = None ->
  let this_config := constructor user in
  post this_config url data options w =
    request this_config (write_config POST url data options) w /\
  put this_config url data options w =
    request this_config (write_config PUT url data options) w /\
  patch this_config url data options w =
    request this_config (write_config PATCH url data options) w /\
  delete this_config url options w =
    request this_config (write_config DELETE url None options) w /\
  (enableCache user = Undefined -> opt_cache options = None ->
   get this_config url options w =
   request this_config (get_config url options) w).
Proof.
  intros Hretry Hopt this_config.
  assert (Hno : shouldRetry this_config options = None).
  { unfold shouldRetry, this_config, constructor. rewrite Hopt. simpl.
    now rewrite Hretry. }
  unfold post, put, patch, delete. rewrite Hno. cbn [truthy_bool].
  split_and!; try reflexivity.
  intros Hcache Hoptc.
  assert (Hnc : useCache this_config options = None).
  { unfold useCache, this_config, constructor. rewrite Hoptc. simpl.
    now rewrite Hcache. }
  rewrite get_miss by (unfold cached; now rewrite Hnc).
  unfold dispatch_step. rewrite Hno, Hnc. cbn [truthy_bool].
  now destruct (request this_config (get_config url options) w) as [[d|e] w1].
Qed.

(** ** The memory storage *)

Lemma not_inherited_proto (key : string) :
  key ∉ Object_prototype -> String.eqb key "__proto__" = false.
Proof.
  intros Hk. apply String.eqb_neq. intros ->. apply Hk.
  unfold Object_prototype. set_solver.
Qed.

(** X17. The memory storage gives back what was put in: a string that is
    not empty, stored under a key that is not a member of
    [Object.prototype], is what [getItem] returns, and after [removeItem]
    it returns [null]. *)
Theorem memory_storage_round_trip (key value : string) (data : gmap string string) :
  key ∉ Object_prototype ->
  value <> EmptyString ->
  getItem key (setItem key value data) = Text value /\
  getItem key (removeItem key (setItem key value data)) = Null.
Proof.
  intros Hk Hv. unfold getItem, setItem, removeItem.
  rewrite (not_inherited_proto key Hk).
  rewrite lookup_insert_eq, lookup_delete_eq.
  apply String.eqb_neq in Hv. rewrite Hv.
  now rewrite bool_decide_eq_false_2.
Qed.

(** X18. Writing or removing one key of the memory storage changes what
    is read under no other key. *)
Theorem memory_storage_other_keys (key key' value : string)
    (data : gmap string string) :
  key <> key' ->
  getItem key' (setItem key value data) = getItem key' data /\
  getItem key' (removeItem key data) = getItem key' data.
Proof.
  intros Hne. unfold getItem, setItem, removeItem.
  rewrite lookup_delete_ne by exact Hne.
  destruct (String.eqb key "__proto__"); [easy|].
  now rewrite lookup_insert_ne by exact Hne.
Qed.

(** X19. What the memory storage does not give back.  An empty string
    reads as [null], as if nothing were stored; and a string stored under
    [__proto__] is dropped by the assignment, so that the key reads as the
    inherited member before and after, in any store built by [setItem]
    and [removeItem]. *)
Theorem memory_storage_lost_values (key value : string) (data : gmap string string) :
  data !! "__proto__" = None ->
  (key <> "__proto__" -> getItem key (setItem key EmptyString data) = Null) /\
  setItem key value data !! "__proto__" = None /\
  removeItem key data !! "__proto__" = None /\
  getItem "__proto__" (setItem "__proto__" value data) = Inherited.
Proof.
  intros Hd. unfold getItem, setItem, removeItem. split_and!.
  - intros Hk. apply String.eqb_neq in Hk. rewrite Hk.
    now rewrite lookup_insert_eq.
  - destruct (String.eqb_spec key "__proto__") as [->|Hk]; [exact Hd|].
    now rewrite lookup_insert_ne.
  - destruct (String.eqb_spec key "__proto__") as [->|Hk].
    + now rewrite lookup_delete_eq.
    + now rewrite lookup_delete_ne.
  - rewrite String.eqb_refl, Hd. reflexivity.
Qed.

(** ** The cache entries of other calls *)

Lemma cacheKey_inj (url1 url2 : string) (options1 options2 : RequestOptions) :
  cacheKey url1 options1 = cacheKey url2 options2 ->
  url1 = url2 /\
  default [] (opt_params options1) = default [] (opt_params options2).
Proof.
  unfold cacheKey.
  generalize (default [] (opt_params options1))
             (default [] (opt_params options2)).
  intros p1 p2 H.
  assert (Hend : forall u p q, u +:+ JSON_stringify p = JSON_stringify q ->
                               u = EmptyString /\ p = q).
  { intros u p q Hu. destruct u as [|c t].
    - split; [reflexivity|].
      rewrite <- (sapp_nil_r (JSON_stringify p)) in Hu.
      rewrite <- (sapp_nil_r (JSON_stringify q)) in Hu.
      change (EmptyString +:+ ?s) with s in Hu.
      now apply JSON_stringify_inv in Hu as [-> _].
    - exfalso. apply (no_serialization_inside (String c t) (JSON_stringify p));
        [discriminate|rewrite Hu|]; apply scan_JSON_stringify. }
  destruct (sapp_eq_split _ _ _ _ H) as [t [[-> Ht]|[-> Ht]]].
  - symmetry in Ht. destruct (Hend _ _ _ Ht) as [-> ->].
    now rewrite sapp_nil_r.
  - symmetry in Ht. destruct (Hend _ _ _ Ht) as [-> ->].
    now rewrite sapp_nil_r.
Qed.

(** X20. A [get] writes at most the entry of its own call: the entry of
    a call with another path, or with other parameters, is after the
    [get] what it was before, however the [get] ends. *)
Theorem get_leaves_other_entries (config : ApiClientConfig)
    (url url' : string) (options options' : RequestOptions) (w : World) :
  (url, default [] (opt_params options)) <>
  (url', default [] (opt_params options')) ->
  cache (snd (get config url options w)) !! cacheKey url' options' =
  cache w !! cacheKey url' options'.
Proof.
  intros Hne.
  assert (Hkey : cacheKey url options <> cacheKey url' options').
  { intros H. apply cacheKey_inj in H as [Hu Hp]. apply Hne. now rewrite Hu, Hp. }
  destruct (cached (useCache config options) (cacheKey url options) w)
    as [d|] eqn:Hc.
  - now rewrite (get_hit config url options w d Hc).
  - rewrite (get_miss config url options w Hc).
    pose proof (framed_dispatch_step config url options w) as [Hcache _ _].
    destruct (dispatch_step config url options w) as [[result|e] w1];
      cbn [snd] in *; [|now rewrite Hcache].
    destruct (truthy_bool _); cbn [cache set_cache]; [|now rewrite Hcache].
    now rewrite lookup_insert_ne, Hcache.
Qed.

(** X21. A negative [cacheDuration] is truthy, so it is the lifetime
    the entry gets: the entry is written with an expiry before the time of
    writing, and as long as the clock does not run backwards no later call
    is answered from it. *)
Theorem negative_cacheDuration_is_never_served (config : ApiClientConfig)
    (url : string) (options : RequestOptions) (w w1 w2 : World) (result : Data) :
  cacheTime config options < 0 ->
  cached (useCache config options) (cacheKey url options) w = None ->
  get config url options w = (Ok result, w1) ->
  cache w2 = cache w1 ->
  now w1 <= now w2 ->
  cached (useCache config options) (cacheKey url options) w2 = None.
Proof.
  intros Hneg Hmiss Hget Hsame Hnow.
  rewrite (get_miss config url options w Hmiss) in Hget.
  unfold cached. destruct (truthy_bool (useCache config options)); [|reflexivity].
  destruct (dispatch_step config url options w) as [[r|e] w']; [|discriminate].
  injection Hget as <- <-. rewrite Hsame. cbn [cache set_cache].
  rewrite lookup_insert_eq. cbn [expiry]. cbn [now set_cache] in Hnow.
  destruct (now w2 <? now w' + cacheTime config options) eqn:E; [|reflexivity].
  apply Z.ltb_lt in E. lia.
Qed.

(** ** Worked examples of the further properties *)

Lemma write_verbs_leave_cache_witness :
  let w := snd (get caching_client "/items/" page_1
                  (world_of signed_in (scripted [items; items]))) in
  cache w !! cacheKey "/items/" page_1 =
    Some {| data := DVal None "items"; expiry := 1010 |} /\
  cache (snd (post caching_client "/items/" (Some "{}") no_options w)) = cache w.
Proof.
  intros w. split; [vm_compute; reflexivity|].
  apply (write_verbs_leave_cache caching_client "/items/" (Some "{}") no_options).
  apply list_elem_of_here.
Defined.

Lemma onAuthError_never_called_witness :
  let w := world_of signed_in (scripted [unauthorized; NoResponse]) in
  read (onAuthError client_with_callback) = Some tt /\
  auth_errors (trace (snd (get client_with_callback "/x" no_options w))) = 0%nat.
Proof.
  intros w. split; [reflexivity|].
  apply (onAuthError_never_called client_with_callback "/x" None no_options).
  apply list_elem_of_here.
Defined.

Lemma verb_sends_at_most_witness :
  let w := world_of signed_in expired_session in
  (sent (snd (get default_client "/x" no_options w)) <= 12)%nat.
Proof.
  intros w.
  apply (verb_sends_at_most default_client "/x" None no_options).
  apply list_elem_of_here.
Defined.

Lemma corrupt_item_fails_every_write_witness :
  let w := world_of (Some BadJSON) (scripted [items]) in
  let out := put default_client "/items/1/" (Some "{}") no_options w in
  fst out = Throw SyntaxError /\
  sent (snd out) = 0%nat /\
  trace (snd out) = [SetTimeout 1000; SetTimeout 2000; SetTimeout 4000].
Proof.
  intros w out.
  destruct (corrupt_item_fails_every_write default_client "/items/1/"
              (Some "{}") no_options
              (put default_client "/items/1/" (Some "{}") no_options) w)
    as (Hout & _ & Hsent & Htrace).
  - apply list_elem_of_further, list_elem_of_here.
  - reflexivity.
  - split_and!; [exact Hout|exact Hsent|exact Htrace].
Defined.

Lemma request_passes_other_answers_witness :
  let c := get_config "/x" no_options in
  let w := world_of signed_in (scripted [server_error]) in
  let c1 := authorized (stored_access w) c in
  request default_client c w = dispatchRequest c1 w /\
  fst (dispatchRequest c1 w) = Throw (AxiosError c1 (Some 500)) /\
  storage (snd (request default_client c w)) = signed_in.
Proof.
  intros c w c1.
  destruct (request_passes_other_answers default_client c w)
    as (Hreq & Hstorage & _).
  - discriminate.
  - left. reflexivity.
  - split_and!; [exact Hreq|reflexivity|exact Hstorage].
Defined.

Lemma refresh_without_access_is_replayed_witness :
  let c := get_config "/x" no_options in
  let w := world_of signed_in (scripted [unauthorized; items; items]) in
  let c1 := authorized (stored_access w) c in
  let c2 := with_Authorization "Bearer undefined" (with_retry_flag c1) in
  exists w2,
    storage w2 = Some (JSON {| access := None; refresh := Some "r" |}) /\
    request default_client c w = dispatchRequest c2 w2 /\
    fst (dispatchRequest c2 w2) = Ok (DVal None "items").
Proof.
  intros c w c1 c2.
  destruct (refresh_without_access_is_replayed default_client c w
              (snd (dispatchRequest c1 w)) 200 "items")
    as (w2 & Hr & Hstorage & Hreq); try reflexivity; [discriminate|].
  exists w2. split_and!; [exact Hstorage|exact Hreq|].
  change (refreshToken (snd (dispatchRequest c1 w)))
    with (Ok true, snd (refreshToken (snd (dispatchRequest c1 w)))) in Hr.
  injection Hr as <-. reflexivity.
Defined.

Lemma logout_clears_tokens_witness :
  let w := world_of signed_in (scripted [logged_out]) in
  exists w',
    logout default_client logout_path w = (Ok tt, w') /\
    storage w' = None /\
    exists rest,
      trace w' =
      Dispatch (with_Authorization "Bearer a"
                  (write_config POST "/auth/logout/"
                     (Some (refresh_body (Some "r"))) no_options)) :: rest.
Proof.
  intros w.
  destruct (logout_clears_tokens default_client logout_path w)
    as (w' & Hout & Hstorage & _ & _ & Hsent); [discriminate|].
  exists w'. split_and!; [exact Hout|exact Hstorage|].
  exact (Hsent eq_refl).
Defined.

Lemma logout_keeps_corrupt_item_witness :
  let w := world_of (Some BadJSON) (scripted [logged_out]) in
  logout default_client logout_path w = (Throw SyntaxError, w).
Proof.
  intros w. apply (logout_keeps_corrupt_item default_client logout_path w).
  reflexivity.
Defined.

Lemma getCurrentUser_after_logout_witness :
  let w := world_of signed_in (scripted [current_user; logged_out]) in
  let w1 := snd (getCurrentUser caching_client w) in
  let w2 := snd (logout caching_client logout_path w1) in
  stored_access w1 = Some "a" /\
  storage w2 = None /\
  getCurrentUser caching_client w2 = (Ok (DVal None "user"), w2) /\
  sent w2 = 2%nat.
Proof.
  intros w w1 w2.
  assert (Hget : getCurrentUser caching_client w = (Ok (DVal None "user"), w1))
    by (vm_compute; reflexivity).
  assert (Hnow : now w2 < now w1 + cacheTime caching_client no_options)
    by (vm_compute; reflexivity).
  destruct (getCurrentUser_after_logout caching_client logout_path w w1
              (DVal None "user") eq_refl eq_refl Hget ltac:(discriminate) Hnow)
    as [Hstorage Hagain].
  split_and!; [reflexivity|exact Hstorage|exact Hagain|vm_compute; reflexivity].
Defined.

Lemma refresh_race_last_reply_wins_witness :
  let w := world_of signed_in (scripted [new_access; unauthorized]) in
  storage (fst (run [0; 1; 0; 1]%nat (w, [Pending; Pending]))) = None /\
  storage (fst (run [0; 1; 1; 0]%nat (w, [Pending; Pending]))) =
    Some (JSON {| access := Some "a2"; refresh := Some "r" |}).
Proof.
  intros w.
  destruct (refresh_race_last_reply_wins w)
    as (_ & Hnone & _ & status & a & content & Hreply & Hsome);
    try reflexivity; [discriminate|].
  split; [exact Hnone|].
  change (outcome (net w (sent w))) with (Response 200 (DVal (Some "a2") "tokens"))
    in Hreply.
  injection Hreply as <- <- <-. exact Hsome.
Defined.

Lemma negative_retryCount_is_one_attempt_witness :
  let options :=
    {| opt_cache := None; opt_cacheDuration := None; opt_retry := None;
       opt_retryCount := Some (-1); opt_retryDelay := None;
       opt_params := None |} in
  let w := world_of signed_in (scripted [server_error; items]) in
  shouldRetry default_client options = Some true /\
  post default_client "/items/" (Some "{}") options w =
    request default_client (write_config POST "/items/" (Some "{}") options) w /\
  trace (snd (post default_client "/items/" (Some "{}") options w)) =
    [Dispatch (with_Authorization "Bearer a"
                 (write_config POST "/items/" (Some "{}") options))].
Proof.
  intros options w.
  destruct (negative_retryCount_is_one_attempt default_client "/items/"
              (Some "{}") options (-1) w eq_refl ltac:(lia)) as (Hpost & _).
  split_and!; [reflexivity|exact Hpost|rewrite Hpost; vm_compute; reflexivity].
Defined.

Lemma undefined_overrides_the_defaults_witness :
  let user := {| enableCache := Undefined; cacheDuration := Absent;
                 enableRetry := Undefined; retryCount := Absent;
                 retryDelay := Absent; onAuthError := Absent |} in
  let w := world_of signed_in (scripted [server_error; items]) in
  get (constructor user) "/x" no_options w =
    request (constructor user) (get_config "/x" no_options) w /\
  sent (snd (get (constructor user) "/x" no_options w)) = 1%nat /\
  sent (snd (get default_client "/x" no_options w)) = 2%nat.
Proof.
  intros user w.
  destruct (undefined_overrides_the_defaults user "/x" None no_options w
              eq_refl eq_refl) as (_ & _ & _ & _ & Hget).
  split_and!; [exact (Hget eq_refl eq_refl)| |]; vm_compute; reflexivity.
Defined.

Lemma memory_storage_round_trip_witness :
  getItem "auth_tokens" (setItem "auth_tokens" "{}" ∅) = Text "{}" /\
  getItem "auth_tokens" (removeItem "auth_tokens" (setItem "auth_tokens" "{}" ∅)) = Null.
Proof.
  apply (memory_storage_round_trip "auth_tokens" "{}" ∅).
  - unfold Object_prototype. rewrite !not_elem_of_cons.
    split_and!; try discriminate. apply not_elem_of_nil.
  - discriminate.
Defined.

Lemma memory_storage_other_keys_witness :
  getItem "auth_tokens" (setItem "theme" "dark" (setItem "auth_tokens" "{}" ∅)) =
    Text "{}" /\
  getItem "auth_tokens" (removeItem "theme" (setItem "auth_tokens" "{}" ∅)) =
    Text "{}".
Proof.
  destruct (memory_storage_other_keys "theme" "auth_tokens" "dark"
              (setItem "auth_tokens" "{}" ∅)) as [Hset Hremove];
    [discriminate|].
  rewrite Hset, Hremove. split; vm_compute; reflexivity.
Defined.

Lemma memory_storage_lost_values_witness :
  getItem "auth_tokens" (setItem "auth_tokens" EmptyString ∅) = Null /\
  getItem "__proto__" (setItem "__proto__" "{}" ∅) = Inherited.
Proof.
  destruct (memory_storage_lost_values "auth_tokens" "{}" ∅)
    as (Hempty & _ & _ & Hproto); [reflexivity|].
  split; [apply Hempty; discriminate|exact Hproto].
Defined.

Lemma get_leaves_other_entries_witness :
  let w := snd (get caching_client "/items/" page_1
                  (world_of signed_in (scripted [items; current_user]))) in
  let w' := snd (get caching_client "/items/" no_options w) in
  cache w' !! cacheKey "/items/" page_1 =
    Some {| data := DVal None "items"; expiry := 1010 |} /\
  data <$> cache w' !! cacheKey "/items/" no_options = Some (DVal None "user").
Proof.
  intros w w'. split; [|vm_compute; reflexivity].
  unfold w'.
  rewrite (get_leaves_other_entries caching_client "/items/" "/items/"
             no_options page_1 w); [|discriminate].
  vm_compute. reflexivity.
Defined.

Lemma negative_cacheDuration_is_never_served_witness :
  let options :=
    {| opt_cache := None; opt_cacheDuration := Some (-1); opt_retry := None;
       opt_retryCount := None; opt_retryDelay := None; opt_params := None |} in
  let w := world_of signed_in (scripted [items; items]) in
  let w1 := snd (get caching_client "/items/" options w) in
  expiry <$> cache w1 !! cacheKey "/items/" options = Some 9 /\
  now w1 = 10 /\
  cached (useCache caching_client options) (cacheKey "/items/" options) w1 = None.
Proof.
  intros options w w1.
  split_and!; [vm_compute; reflexivity|vm_compute; reflexivity|].
  assert (Hget : get caching_client "/items/" options w = (Ok (DVal None "items"), w1))
    by (vm_compute; reflexivity).
  apply (negative_cacheDuration_is_never_served caching_client "/items/" options
           w w1 w1 (DVal None "items")); [reflexivity|reflexivity|exact Hget|reflexivity|lia].
Defined.

(** * The response cache and the dispatch *)

Section CacheFacts.

Variable config : ApiClientConfig.

(** What the request interceptor makes of the request of [get]. *)
Lemma authorized_get_config (a : option string) (path : string)
    (options : RequestOptions) :
  let c := authorized a (get_config path options) in
  method c = GET /\ url c = path /\ params c = opt_params options /\
  body c = None /\ _retry c = false /\
  Authorization c =
    (if truthy_str a then Some ("Bearer " +:+ template a) else None).
Proof. unfold authorized. destruct (truthy_str a); now repeat split. Qed.

(** The dispatch step on a stored item that does not parse: every attempt
    is rejected by the request interceptor, and the waits between the
    attempts are all that happens. *)
Lemma dispatch_step_BadJSON (path : string) (options : RequestOptions) (w : World) :
  storage w = Some BadJSON ->
  exists w1,
    dispatch_step config path options w = (Throw SyntaxError, w1) /\
    sent w1 = sent w /\
    trace w1 =
      trace w ++ (SetTimeout <$>
                  if truthy_bool (shouldRetry config options)
                  then backoff (delay config options)
                         (Z.to_nat (maxRetries config options))
                  else []).
Proof.
  intros Hs. unfold dispatch_step. destruct (truthy_bool _).
  - destruct (withRetry_always_fails
                (request config (get_config path options))
                (fun w => storage w = Some BadJSON) SyntaxError
                (maxRetries config options) (delay config options) w)
      as (w1 & Hw & _ & Hsent & Htrace); auto.
    + intros w0. apply request_BadJSON.
    + eauto.
  - exists w. rewrite (request_BadJSON config _ w Hs). simpl.
    now rewrite app_nil_r.
Qed.

(** C6, as the code has it: with caching enabled for the call, (1) while
    the entry stored under the call's key has its expiry in the future,
    [get] returns the cached payload and leaves the world as it is:
    nothing is sent; (2) when there is no entry or the time is at or after
    its expiry, and the stored token item parses, [get] sends a request,
    its first new event: a GET of the path of the call with its
    parameters, without a body, carrying the stored access token when
    there is one; when the stored item does not parse, nothing is sent:
    the call rejects with the [SyntaxError] and only the timers of the
    retries run; (3) when the call succeeds, the entry under the key is
    overwritten with the payload and the expiry [Date.now() + cacheTime],
    the clock being read when the result arrives. *)
Theorem get_cache_window (path : string) (options : RequestOptions) (w : World) :
  truthy_bool (useCache config options) = true ->
  let key := cacheKey path options in
  (forall entry, cache w !! key = Some entry -> now w < expiry entry ->
     get config path options w = (Ok (data entry), w))
  /\
  ((forall entry, cache w !! key = Some entry -> expiry entry <= now w) ->
   forall out w', get config path options w = (out, w') ->
     (parses w ->
      exists c rest,
        trace w' = trace w ++ Dispatch c :: rest /\
        method c = GET /\ url c = path /\ params c = opt_params options /\
        body c = None /\ _retry c = false /\
        Authorization c =
          (if truthy_str (stored_access w)
           then Some ("Bearer " +:+ template (stored_access w)) else None))
     /\
     (storage w = Some BadJSON ->
      out = Throw SyntaxError /\
      sent w' = sent w /\
      cache w' = cache w /\
      trace w' =
        trace w ++ (SetTimeout <$>
                    if truthy_bool (shouldRetry config options)
                    then backoff (delay config options)
                           (Z.to_nat (maxRetries config options))
                    else []))
     /\
     (forall result, out = Ok result ->
        cache w' = <[key := {| data := result;
                                expiry := now w' + cacheTime config options |}]>
                     (cache w))).
Proof.
  intros Huse key. split.
  - intros entry He Hlt. apply get_hit. apply cached_Some. eauto.
  - intros Hexp out w' Hget.
    assert (Hmiss : cached (useCache config options) key w = None).
    { destruct (cached _ key w) as [d|] eqn:Hc; [|reflexivity].
      apply cached_Some in Hc as (_ & entry & He & Hlt & _).
      specialize (Hexp entry He). lia. }
    rewrite (get_miss config path options w Hmiss), Huse in Hget.
    pose proof (framed_dispatch_step config path options w) as [Hcache _ _].
    split_and!.
    + intros Hw.
      destruct (dispatch_step_sends config path options w Hw) as [rest Hrest].
      exists (authorized (stored_access w) (get_config path options)), rest.
      split; [|apply authorized_get_config].
      destruct (dispatch_step config path options w) as [[result|e] w1];
        cbn [snd] in *; injection Hget as <- <-; exact Hrest.
    + intros Hs.
      destruct (dispatch_step_BadJSON path options w Hs)
        as (w1 & Hd & Hsent & Htrace).
      rewrite Hd in Hget, Hcache. injection Hget as <- <-. auto.
    + intros result ->.
      destruct (dispatch_step config path options w) as [[r|e] w1];
        cbn [snd] in *; [|discriminate].
      injection Hget as <- <-. simpl. now rewrite Hcache.
Qed.

(** C10: a [get] whose dispatch fails, the retries included, fails with
    that failure and leaves the cache as it was; and an entry that is in
    the cache after a [get] was there before it, or is the entry of the
    call's key and holds the payload its dispatch succeeded with, stored
    with the expiry [Date.now() + cacheTime]. *)
Theorem get_failure_leaves_cache (path : string) (options : RequestOptions)
    (w : World) :
  (forall e w1,
     dispatch_step config path options w = (Throw e, w1) ->
     cache (snd (get config path options w)) = cache w /\
     (cached (useCache config options) (cacheKey path options) w = None ->
      get config path options w = (Throw e, w1) /\ cache w1 = cache w)) /\
  (forall key entry,
     cache (snd (get config path options w)) !! key = Some entry ->
     cache w !! key = Some entry \/
     (key = cacheKey path options /\
      exists w1,
        dispatch_step config path options w = (Ok (data entry), w1) /\
        expiry entry = now w1 + cacheTime config options)).
Proof.
  pose proof (framed_dispatch_step config path options w) as [Hcache _ _].
  destruct (cached (useCache config options) (cacheKey path options) w)
    as [d|] eqn:Hc.
  - rewrite (get_hit config path options w d Hc). cbn [snd].
    split; [|now left]. intros e w1 Hd. split; [reflexivity|discriminate].
  - rewrite (get_miss config path options w Hc). split.
    + intros e w1 Hd. rewrite Hd in *. cbn [snd] in *. auto.
    + intros key entry.
      destruct (dispatch_step config path options w) as [[result|e] w1];
        cbn [snd] in *; [|rewrite Hcache; now left].
      destruct (truthy_bool _); cbn [snd cache set_cache];
        [|rewrite Hcache; now left].
      destruct (decide (key = cacheKey path options)) as [->|Hne].
      * rewrite lookup_insert_eq. intros [= <-]. right.
        split; [reflexivity|]. exists w1. now split.
      * rewrite lookup_insert_ne by congruence. rewrite Hcache. now left.
Qed.

End CacheFacts.

(** ** Worked examples of the cache *)

Lemma get_cache_window_witness :
  let w := world_of signed_in (scripted [items; items]) in
  let w1 := snd (get caching_client "/items/" page_1 w) in
  let w2 := elapse 1000 w1 in
  get caching_client "/items/" page_1 w = (Ok (DVal None "items"), w1) /\
  expiry <$> cache w1 !! cacheKey "/items/" page_1 = Some 1010 /\
  get caching_client "/items/" page_1 w1 = (Ok (DVal None "items"), w1) /\
  dispatches (trace w1) = 1%nat /\
  now w2 = 1010 /\
  exists c rest,
    trace (snd (get caching_client "/items/" page_1 w2)) =
      trace w2 ++ Dispatch c :: rest /\
    method c = GET /\ url c = "/items/" /\ params c = Some [("page", PNum 1)] /\
    Authorization c = Some "Bearer a".
Proof.
  intros w w1 w2.
  destruct (get_cache_window caching_client "/items/" page_1 w1 eq_refl)
    as [Hhit _].
  destruct (get_cache_window caching_client "/items/" page_1 w2 eq_refl)
    as [_ Hmiss].
  split; [vm_compute; reflexivity|]. split; [vm_compute; reflexivity|].
  split; [|split; [vm_compute; reflexivity|split; [vm_compute; reflexivity|]]].
  - apply (Hhit {| data := DVal None "items"; expiry := 1010 |});
      vm_compute; reflexivity.
  - destruct (Hmiss ltac:(intros entry He; vm_compute in He;
                          injection He as <-; vm_compute; discriminate)
                _ _ (surjective_pairing _)) as (Hsend & _).
    destruct (Hsend ltac:(discriminate))
      as (c & rest & Ht & Hm & Hu & Hp & _ & _ & Ha).
    exists c, rest. split_and!; [exact Ht|exact Hm|exact Hu|exact Hp|exact Ha].
Defined.

(** C6 at a stored item that does not parse: the entry has expired, and
    the call sends nothing. *)
Lemma get_on_bad_item_sends_nothing :
  let w := world_of signed_in (scripted [items; items]) in
  let w1 := snd (get caching_client "/items/" page_1 w) in
  let w2 := elapse 1000 (set_storage (Some BadJSON) w1) in
  let out := get caching_client "/items/" page_1 w2 in
  expiry <$> cache w2 !! cacheKey "/items/" page_1 = Some 1010 /\
  now w2 = 1010 /\
  fst out = Throw SyntaxError /\
  sent (snd out) = sent w2 /\
  dispatches (trace (snd out)) = dispatches (trace w2) /\
  timers (trace (snd out)) = [1000; 2000; 4000] /\
  cache (snd out) = cache w2.
Proof. vm_compute. repeat split; reflexivity. Qed.

(** C10 at an entry that has expired and a server that answers 404 from
    then on: the four attempts fail, [get] fails with the last failure,
    and the cache holds what it held. *)
Lemma get_failure_leaves_cache_witness :
  let w := world_of signed_in
             (scripted [items; not_found; not_found; not_found; not_found]) in
  let w1 := snd (get caching_client "/items/" page_1 w) in
  let w2 := elapse 1000 w1 in
  let failure :=
    AxiosError (authorized (Some "a") (get_config "/items/" page_1)) (Some 404) in
  let w3 := snd (dispatch_step caching_client "/items/" page_1 w2) in
  dispatch_step caching_client "/items/" page_1 w2 = (Throw failure, w3) /\
  get caching_client "/items/" page_1 w2 = (Throw failure, w3) /\
  dispatches (trace w3) = 5%nat /\
  cache w3 = cache w2 /\
  cache w3 !! cacheKey "/items/" page_1 =
    Some {| data := DVal None "items"; expiry := 1010 |}.
Proof.
  intros w w1 w2 failure w3.
  assert (Hd : dispatch_step caching_client "/items/" page_1 w2 = (Throw failure, w3))
    by (vm_compute; reflexivity).
  destruct (get_failure_leaves_cache caching_client "/items/" page_1 w2)
    as [Hfail _].
  destruct (Hfail failure w3 Hd) as [_ Hmiss].
  destruct (Hmiss ltac:(vm_compute; reflexivity)) as [Hget Hcache].
  split_and!; [exact Hd|exact Hget|vm_compute; reflexivity|exact Hcache|].
  rewrite Hcache. vm_compute. reflexivity.
Defined.
